(** * Spotify VRC: the now-playing reader, the match resolver and the Share action

    A shallow embedding of [spotify_vrc.py].  Python strings are sequences of
    Unicode code points, so a string is a list of code points ([N]); the
    operating system's media sessions and the network are inputs of the
    functions, and the clipboard, the indicators shown and the requests sent
    are threaded through as a [world]. *)

From Stdlib Require Import String Ascii.
From Stdlib Require Import List NArith ZArith Bool Lia PeanoNat.
Import ListNotations.

(** ** Python strings *)

Definition char := N.
Definition str := list char.

(** A string literal of the source (ASCII only) as a Python string. *)
Definition lit (s : string) : str :=
  List.map N_of_ascii (list_ascii_of_string s).

Definition char_eqb (a b : char) : bool := N.eqb a b.

Fixpoint str_eqb (a b : str) : bool :=
  match a, b with
  | [], [] => true
  | x :: a', y :: b' => char_eqb x y && str_eqb a' b'
  | _, _ => false
  end.

(** Truth value of a string: only the empty string is false. *)
Definition str_truthy (s : str) : bool :=
  match s with [] => false | _ :: _ => true end.

(** Truth value of a string-or-None. *)
Definition truthy (v : option str) : bool :=
  match v with None => false | Some s => str_truthy s end.

(** [str(v)] as an f-string field formats it. *)
Definition format_field (v : option str) : str :=
  match v with None => lit "None" | Some s => s end.

(** The characters [str.strip()] removes: the Unicode whitespace of
    [str.isspace]. *)
Definition is_space (c : char) : bool :=
  ((9 <=? c) && (c <=? 13) || (28 <=? c) && (c <=? 32)
   || (c =? 133) || (c =? 160) || (c =? 5760)
   || (8192 <=? c) && (c <=? 8202)
   || (c =? 8232) || (c =? 8233) || (c =? 8239) || (c =? 8287)
   || (c =? 12288))%N.

Fixpoint lstrip (s : str) : str :=
  match s with
  | [] => []
  | c :: rest => if is_space c then lstrip rest else s
  end.

Definition rstrip (s : str) : str := rev (lstrip (rev s)).

Definition strip (s : str) : str := rstrip (lstrip s).

(** [p] is a prefix of [s]. *)
Fixpoint starts_with (p s : str) : bool :=
  match p, s with
  | [], _ => true
  | _ :: _, [] => false
  | x :: p', y :: s' => char_eqb x y && starts_with p' s'
  end.

(** [needle in hay]. *)
Fixpoint contains (needle hay : str) : bool :=
  starts_with needle hay
  || match hay with
     | [] => false
     | _ :: rest => contains needle rest
     end.

(** [sep.join(parts)]. *)
Fixpoint join (sep : str) (parts : list str) : str :=
  match parts with
  | [] => []
  | [p] => p
  | p :: rest => p ++ sep ++ join sep rest
  end.

(** ** Exceptions and results *)

Inductive exn : Type :=
  Exn (kind : str) (message : str).

Definition exn_message (e : exn) : str :=
  match e with Exn _ m => m end.

Inductive result (A : Type) : Type :=
| Returned (a : A)
| Raised (e : exn).
Arguments Returned {A} a.
Arguments Raised {A} e.

Definition bind_result {A B} (r : result A) (k : A -> result B) : result B :=
  match r with
  | Returned a => k a
  | Raised e => Raised e
  end.

Declare Scope result_scope.
Delimit Scope result_scope with result.
Notation "x <- r ;; k" := (bind_result r (fun x => k))
  (at level 61, r at next level, right associativity) : result_scope.

(** ** The match resolver: scanning the response body *)

Definition APP_NAME : str := lit "Spotify VRC".

Definition USER_AGENT : str :=
  lit "Mozilla/5.0 (Windows NT 10.0; Win64; x64) AppleWebKit/537.36 (KHTML, like Gecko) Chrome/121.0.0.0 Safari/537.36".

(** The class [[a-zA-Z0-9_-]]. *)
Definition is_id_char (c : char) : bool :=
  ((97 <=? c) && (c <=? 122) || (65 <=? c) && (c <=? 90)
   || (48 <=? c) && (c <=? 57) || (c =? 95) || (c =? 45))%N.

(** The literal part of the pattern, [watch\?v=]. *)
Definition marker : str := lit "watch?v=".

(** The pattern [watch\?v=([a-zA-Z0-9_-]{11})] tried at the start of [text]:
    the group when it matches. *)
Definition match_here (text : str) : option str :=
  if starts_with marker text then
    let vid := firstn 11 (skipn 8 text) in
    if (length vid =? 11)%nat && forallb is_id_char vid then Some vid else None
  else None.

(** [re.finditer]: the groups of the non-overlapping matches, leftmost
    first.  [covered] counts the characters ahead that the previous match
    still covers; the search resumes where that match ended. *)
Fixpoint finditer_from (covered : nat) (text : str) : list str :=
  match text with
  | [] => []
  | _ :: rest =>
      match covered with
      | S k => finditer_from k rest
      | O =>
          match match_here text with
          | Some vid => vid :: finditer_from 18 rest
          | None => finditer_from 0 rest
          end
      end
  end.

Definition finditer (text : str) : list str := finditer_from 0 text.

(** [vid in ids]. *)
Definition str_in (vid : str) (ids : list str) : bool :=
  existsb (str_eqb vid) ids.

(** The loop body: [if vid not in ids: ids.append(vid)]. *)
Definition add_id (ids : list str) (vid : str) : list str :=
  if str_in vid ids then ids else ids ++ [vid].

Definition collect_ids (matches : list str) : list str :=
  fold_left add_id matches [].

Definition watch_url (vid : str) : str :=
  lit "https://www.youtube.com/watch?v=" ++ vid.

(** What the resolver does with the response once [requests.get] returned. *)
Definition first_result_of (status_code : Z) (text : str) : option str :=
  if negb (status_code =? 200)%Z then None
  else
    match collect_ids (finditer text) with
    | [] => None
    | vid :: _ => Some (watch_url vid)
    end.

(** ** The world the Share action acts on *)

(** The request [requests.get] sends. *)
Record request : Type := {
  req_url : str;
  req_search_query : str;
  req_user_agent : str;
  req_accept_language : str;
  req_timeout : Z
}.

Record response : Type := {
  status_code : Z;
  text : str
}.

(** What the shell renders: the overlay of [_show_overlay] (transient) and
    the modal box of [messagebox.showerror] (blocking).  The Tk calls are
    taken to succeed; the window placement and the fade of the overlay are
    presentation and are not part of the model. *)
Inductive indicator : Type :=
| Overlay (message : str) (duration_ms fade_ms : Z)
| ErrorBox (title message : str).

Record world : Type := {
  clipboard : str;
  indicators : list indicator;
  requests_sent : list request
}.

(** A statement sequence that may raise: effects made before the exception
    stay. *)
Definition action (A : Type) : Type := world -> result A * world.

Definition ret {A} (a : A) : action A := fun w => (Returned a, w).

Definition bind {A B} (m : action A) (k : A -> action B) : action B :=
  fun w =>
    match m w with
    | (Returned a, w') => k a w'
    | (Raised e, w') => (Raised e, w')
    end.

(** A pure call that may raise, inside an action. *)
Definition lift {A} (r : result A) : action A := fun w => (r, w).

(** [try: body  except Exception as e: handler(e)]. *)
Definition try_except (body : action unit) (handler : exn -> action unit)
  : action unit :=
  fun w =>
    match body w with
    | (Returned tt, w') => (Returned tt, w')
    | (Raised e, w') => handler e w'
    end.

Declare Scope action_scope.
Delimit Scope action_scope with action.
Notation "x <-- m ;; k" := (bind m (fun x => k))
  (at level 61, m at next level, right associativity) : action_scope.
Notation "m ;;; k" := (bind m (fun _ => k))
  (at level 61, right associativity) : action_scope.

Definition _show_overlay (message : str) (duration_ms fade_ms : Z)
  : action unit :=
  fun w =>
    (Returned tt,
     {| clipboard := clipboard w;
        indicators := indicators w ++ [Overlay message duration_ms fade_ms];
        requests_sent := requests_sent w |}).

Definition showerror (title message : str) : action unit :=
  fun w =>
    (Returned tt,
     {| clipboard := clipboard w;
        indicators := indicators w ++ [ErrorBox title message];
        requests_sent := requests_sent w |}).

Definition clipboard_clear : action unit :=
  fun w =>
    (Returned tt,
     {| clipboard := [];
        indicators := indicators w;
        requests_sent := requests_sent w |}).

Definition clipboard_append (s : str) : action unit :=
  fun w =>
    (Returned tt,
     {| clipboard := clipboard w ++ s;
        indicators := indicators w;
        requests_sent := requests_sent w |}).

(** [requests.get]: the request leaves, and the network answers with a
    response or the call raises. *)
Definition requests_get (network : request -> result response) (rq : request)
  : action response :=
  fun w =>
    (network rq,
     {| clipboard := clipboard w;
        indicators := indicators w;
        requests_sent := requests_sent w ++ [rq] |}).

Definition search_request (query : str) : request :=
  {| req_url := lit "https://www.youtube.com/results";
     req_search_query := query;
     req_user_agent := USER_AGENT;
     req_accept_language := lit "en-US,en;q=0.9";
     req_timeout := 20 |}.

Open Scope action_scope.

Definition youtube_first_result_url
  (network : request -> result response) (query : str)
  : action (option str) :=
  r <-- requests_get network (search_request query) ;;
  ret (first_result_of (status_code r) (text r)).

Close Scope action_scope.

(** ** The now-playing reader *)

(** The separators of [[;/]]. *)
Definition is_sep (c : char) : bool := ((c =? 59) || (c =? 47))%N.

(** [re.split(r"[;/]", s)]. *)
Fixpoint split_seps (s : str) : list str :=
  match s with
  | [] => [[]]
  | c :: rest =>
      if is_sep c then [] :: split_seps rest
      else
        match split_seps rest with
        | seg :: segs => (c :: seg) :: segs
        | [] => [[c]]
        end
  end.

(** [x or y] on strings. *)
Definition str_or (x y : str) : str := if str_truthy x then x else y.

(** Line 90:
    [", ".join([a.strip() for a in re.split(r"[;/]", artist) if a.strip()]) or artist]. *)
Definition normalize_artist (artist : str) : str :=
  str_or
    (join (lit ", ")
       (List.map strip
          (List.filter (fun a => str_truthy (strip a)) (split_seps artist))))
    artist.

(** An attribute of the media properties, as [getattr(props, name, "")]
    finds it. *)
Inductive attr : Type :=
| AttrMissing
| AttrNone
| AttrStr (s : str).

(** [getattr(props, name, "") or ""]. *)
Definition getattr_or_empty (a : attr) : str :=
  match a with
  | AttrMissing => []
  | AttrNone => []
  | AttrStr s => str_or s []
  end.

Record media_properties : Type := {
  title : attr;
  artist : attr
}.

(** A media session of the operating system: each member is what reading it
    gives, a value or an exception. *)
Record session : Type := {
  source_app_user_model_id : result (option str);
  try_get_media_properties_async : result media_properties
}.

Record manager : Type := {
  get_sessions : result (list session);
  get_current_session : result (option session)
}.

Record os_env : Type := {
  import_winsdk : result unit;
  request_async : result manager
}.

(** The [try]/[except] around reading the identifier, and [or ""]. *)
Definition appid_of (s : session) : str :=
  match source_app_user_model_id s with
  | Returned (Some appid) => str_or appid []
  | Returned None => []
  | Raised _ => []
  end.

(** The [for] loop with its [break]: the value of [spotify_session]. *)
Fixpoint find_spotify (sessions : list session) : option session :=
  match sessions with
  | [] => None
  | s :: rest =>
      if contains (lit "Spotify") (appid_of s) then Some s
      else find_spotify rest
  end.

(** [spotify_session or mgr.get_current_session()]. *)
Definition select_session (mgr : manager) (sessions : list session)
  : result (option session) :=
  match find_spotify sessions with
  | Some s => Returned (Some s)
  | None => get_current_session mgr
  end.

Definition winsdk_missing : exn :=
  Exn (lit "RuntimeError")
      (lit "Windows 'Now Playing' requires the 'winsdk' package. Install: pip install winsdk").

Open Scope result_scope.

Definition get_local_now_playing (os : os_env)
  : result (option str * option str) :=
  match import_winsdk os with
  | Raised _ => Raised winsdk_missing
  | Returned _ =>
      mgr <- request_async os ;;
      sessions <- get_sessions mgr ;;
      session <- select_session mgr sessions ;;
      match session with
      | None => Returned (None, None)
      | Some s =>
          props <- try_get_media_properties_async s ;;
          let title := strip (getattr_or_empty (title props)) in
          let artist := strip (getattr_or_empty (artist props)) in
          let artist := normalize_artist artist in
          Returned (Some title, Some artist)
      end
  end.

Close Scope result_scope.

(** ** The Share action *)

Open Scope action_scope.

Definition share_song_url
  (os : os_env) (network : request -> result response) : action unit :=
  try_except
    (now_playing <-- lift (get_local_now_playing os) ;;
     let '(track, artist) := now_playing in
     if negb (truthy track) then
       _show_overlay (lit "no track is playing") 2000 500
     else
       let query :=
         strip (format_field track ++ lit " " ++ format_field artist) in
       url <-- youtube_first_result_url network query ;;
       match url with
       | Some u =>
           if negb (str_truthy u) then
             showerror APP_NAME (lit "Couldn't find a YouTube result.")
           else
             clipboard_clear ;;; clipboard_append u
       | None => showerror APP_NAME (lit "Couldn't find a YouTube result.")
       end)
    (fun e => showerror APP_NAME (lit "Error: " ++ exn_message e)).

Close Scope action_scope.

(** ** The overlay window and its timers *)

Module App.

(** The closure [lambda: _fade_step(i)] handed to [after]: it belongs to
    the overlay [_show_overlay] made, and carries the step and the
    [step_ms] of that call. *)
Record callback : Type := {
  cb_overlay : nat;
  cb_step : Z;
  cb_step_ms : Z
}.

(** A timer of [after] that has not fired and was not cancelled. *)
Record timer : Type := {
  timer_id : nat;
  timer_ms : Z;
  timer_callback : callback
}.

(** An overlay [Toplevel] that was not destroyed: its label, and the step
    whose alpha, [max(0.0, 0.98 * (1 - i / steps))], was last set on it
    (0 for the initial 0.98).  Colours, fonts and the position on screen
    are not kept. *)
Record toplevel : Type := {
  window_id : nat;
  window_text : str;
  window_alpha_step : Z
}.

(** The three attributes of the instance that the overlay code uses, and
    Tk's side: the windows alive, the timers pending, and the next
    identifiers Tk gives out. *)
Record app : Type := {
  _overlay : option nat;
  _overlay_after_id : option nat;
  _fade_after_id : option nat;
  windows : list toplevel;
  timers : list timer;
  next_window : nat;
  next_timer : nat
}.

(** The state [__init__] leaves. *)
Definition init : app :=
  {| _overlay := None; _overlay_after_id := None; _fade_after_id := None;
     windows := []; timers := []; next_window := 0; next_timer := 0 |}.

Definition set_overlay (v : option nat) (a : app) : app :=
  {| _overlay := v;
     _overlay_after_id := _overlay_after_id a;
     _fade_after_id := _fade_after_id a;
     windows := windows a; timers := timers a;
     next_window := next_window a; next_timer := next_timer a |}.

Definition set_overlay_after_id (v : option nat) (a : app) : app :=
  {| _overlay := _overlay a;
     _overlay_after_id := v;
     _fade_after_id := _fade_after_id a;
     windows := windows a; timers := timers a;
     next_window := next_window a; next_timer := next_timer a |}.

Definition set_fade_after_id (v : option nat) (a : app) : app :=
  {| _overlay := _overlay a;
     _overlay_after_id := _overlay_after_id a;
     _fade_after_id := v;
     windows := windows a; timers := timers a;
     next_window := next_window a; next_timer := next_timer a |}.

Definition set_windows (ws : list toplevel) (a : app) : app :=
  {| _overlay := _overlay a;
     _overlay_after_id := _overlay_after_id a;
     _fade_after_id := _fade_after_id a;
     windows := ws; timers := timers a;
     next_window := next_window a; next_timer := next_timer a |}.

Definition set_timers (ts : list timer) (a : app) : app :=
  {| _overlay := _overlay a;
     _overlay_after_id := _overlay_after_id a;
     _fade_after_id := _fade_after_id a;
     windows := windows a; timers := ts;
     next_window := next_window a; next_timer := next_timer a |}.

(** [self.after(ms, callback)]: a new pending timer; its identifier. *)
Definition after (ms : Z) (cb : callback) (a : app) : nat * app :=
  (next_timer a,
   {| _overlay := _overlay a;
      _overlay_after_id := _overlay_after_id a;
      _fade_after_id := _fade_after_id a;
      windows := windows a;
      timers := timers a
                ++ [{| timer_id := next_timer a; timer_ms := ms;
                       timer_callback := cb |}];
      next_window := next_window a;
      next_timer := S (next_timer a) |}).

(** [self.after_cancel(id)]: the timer is dropped if it is still pending;
    for one that fired or was cancelled this does nothing. *)
Definition after_cancel (id : nat) (a : app) : app :=
  set_timers (filter (fun t => negb (timer_id t =? id)) (timers a)) a.

(** [tk.Toplevel(self)] with its label. *)
Definition new_toplevel (text : str) (a : app) : nat * app :=
  (next_window a,
   {| _overlay := _overlay a;
      _overlay_after_id := _overlay_after_id a;
      _fade_after_id := _fade_after_id a;
      windows := windows a
                 ++ [{| window_id := next_window a; window_text := text;
                        window_alpha_step := 0 |}];
      timers := timers a;
      next_window := S (next_window a);
      next_timer := next_timer a |}).

(** [overlay.destroy()]. *)
Definition destroy (ov : nat) (a : app) : app :=
  set_windows (filter (fun w => negb (window_id w =? ov)) (windows a)) a.

(** [overlay.attributes("-alpha", alpha)] inside its [try]: on a window
    that was destroyed the call raises and the exception is passed over. *)
Definition set_alpha (ov : nat) (i : Z) (a : app) : app :=
  set_windows
    (map (fun w =>
            if window_id w =? ov
            then {| window_id := window_id w; window_text := window_text w;
                    window_alpha_step := i |}
            else w)
       (windows a)) a.

Definition _hide_overlay (a : app) : app :=
  let a :=
    match _overlay_after_id a with
    | Some id => set_overlay_after_id None (after_cancel id a)
    | None => a
    end in
  let a :=
    match _fade_after_id a with
    | Some id => set_fade_after_id None (after_cancel id a)
    | None => a
    end in
  match _overlay a with
  | Some ov => set_overlay None (destroy ov a)
  | None => a
  end.

Definition steps : Z := 10.

(** [_fade_step(i)], the closure of one call of [_show_overlay]. *)
Definition _fade_step (cb : callback) (a : app) : app :=
  let i := cb_step cb in
  let a := set_alpha (cb_overlay cb) i a in
  if (i <? steps)%Z then
    let '(id, a) :=
      after (cb_step_ms cb)
        {| cb_overlay := cb_overlay cb; cb_step := (i + 1)%Z;
           cb_step_ms := cb_step_ms cb |} a in
    set_fade_after_id (Some id) a
  else _hide_overlay a.

(** [_show_overlay(text, duration_ms, fade_ms)].  [int(fade_ms / steps)]
    goes through a float; for [|fade_ms| < 2^53] it is the quotient
    truncated towards zero, which is what [step_ms] is here.  What is
    proved of [step_ms] carries that bound. *)
Definition _show_overlay (text : str) (duration_ms fade_ms : Z) (a : app)
  : app :=
  let a := _hide_overlay a in
  let '(overlay, a) := new_toplevel text a in
  let a := set_overlay (Some overlay) a in
  let step_ms := Z.max 10 (Z.quot fade_ms steps) in
  let '(id, a) :=
    after (Z.max 0 (duration_ms - fade_ms))
      {| cb_overlay := overlay; cb_step := 1; cb_step_ms := step_ms |} a in
  set_overlay_after_id (Some id) a.

(** Tk's event loop runs a pending timer: the timer leaves the queue and
    its callback is called. *)
Definition fire (id : nat) (a : app) : app :=
  match find (fun t => timer_id t =? id) (timers a) with
  | Some t => _fade_step (timer_callback t) (after_cancel id a)
  | None => a
  end.

(** What can happen to the overlay: the Share action shows it, or a timer
    fires. *)
Inductive event : Type :=
| Show (text : str) (duration_ms fade_ms : Z)
| Fire (id : nat).

Definition step (a : app) (e : event) : app :=
  match e with
  | Show text duration_ms fade_ms => _show_overlay text duration_ms fade_ms a
  | Fire id => fire id a
  end.

Definition run (events : list event) (a : app) : app :=
  fold_left step events a.

(** The event loop left alone for [n] timers: each time the first pending
    timer fires; the delays asked for add up. *)
Fixpoint run_timers (n : nat) (a : app) : Z * app :=
  match n with
  | O => (0%Z, a)
  | S n' =>
      match timers a with
      | [] => (0%Z, a)
      | t :: _ =>
          let '(elapsed, a') := run_timers n' (fire (timer_id t) a) in
          ((timer_ms t + elapsed)%Z, a')
      end
  end.

(** No overlay, no timer: the instance attributes are all None. *)
Definition quiet (a : app) : Prop :=
  _overlay a = None /\ _overlay_after_id a = None /\ _fade_after_id a = None
  /\ windows a = [] /\ timers a = [].

(** What the overlay code keeps true: the windows alive are the overlay of
    [_overlay] and no other, and a pending timer is one whose identifier an
    attribute holds and whose callback is for that overlay. *)
Definition consistent (a : app) : Prop :=
  match _overlay a with
  | Some ov =>
      (exists text i,
         windows a = [{| window_id := ov; window_text := text;
                         window_alpha_step := i |}])
      /\ ov < next_window a
  | None => windows a = [] /\ timers a = []
  end
  /\ length (timers a) <= 1
  /\ (forall t, In t (timers a) ->
        _overlay a = Some (cb_overlay (timer_callback t))
        /\ (_overlay_after_id a = Some (timer_id t)
            \/ _fade_after_id a = Some (timer_id t)))
  /\ (forall id, _overlay_after_id a = Some id -> id < next_timer a)
  /\ (forall id, _fade_after_id a = Some id -> id < next_timer a).

End App.

(** ** Vocabulary of the properties *)

(** A string that is not empty and does not begin with whitespace. *)
Definition head_ok (s : str) : Prop :=
  match s with
  | [] => False
  | c :: _ => is_space c = false
  end.

(** No character of [s] is a separator. *)
Definition no_sep (s : str) : Prop := Forall (fun c => is_sep c = false) s.

(** Putting the separators back between the segments. *)
Fixpoint weave (segs : list str) (seps : list char) : str :=
  match segs, seps with
  | [], _ => []
  | seg :: _, [] => seg
  | seg :: segs', c :: seps' => seg ++ c :: weave segs' seps'
  end.

(** Not empty, with no whitespace at either end. *)
Definition clean (s : str) : Prop := head_ok s /\ head_ok (rev s).

(** Whitespace only. *)
Definition all_space (s : str) : Prop := Forall (fun c => is_space c = true) s.

(** The segments line 90 keeps, trimmed. *)
Definition kept_segments (artist : str) : list str :=
  map strip (filter (fun a => str_truthy (strip a)) (split_seps artist)).

(** Normalization as the specification words it: split on the separators,
    trim each segment, drop the empty ones, join with a comma and a space,
    and keep the raw string when nothing is left. *)
Definition normalize_artist_spec (artist : str) : str :=
  let segments := split_seps artist in
  let trimmed := map strip segments in
  let kept := filter str_truthy trimmed in
  match join (lit ", ") kept with
  | [] => artist
  | joined => joined
  end.

(** Every character is of the identifier class. *)
Definition id_chars (vid : str) : Prop :=
  Forall (fun c => is_id_char c = true) vid.

(** The pattern matches at offset [p] of [body], with group [vid]. *)
Definition match_at (body : str) (p : nat) (vid : str) : Prop :=
  exists pre post,
    body = pre ++ marker ++ vid ++ post
    /\ length pre = p /\ length vid = 11 /\ id_chars vid.

(** The body contains the pattern somewhere. *)
Definition has_watch_id (body : str) : Prop :=
  exists p vid, match_at body p vid.

(** The offsets [m.start()] of the matches [re.finditer] yields, by the
    same scan as [finditer_from]; and the group of a match that starts at
    offset [p]. *)
Fixpoint positions_from (covered : nat) (text : str) : list nat :=
  match text with
  | [] => []
  | _ :: rest =>
      match covered with
      | S k => map S (positions_from k rest)
      | O =>
          match match_here text with
          | Some _ => 0 :: map S (positions_from 18 rest)
          | None => map S (positions_from 0 rest)
          end
      end
  end.

Definition match_positions (text : str) : list nat := positions_from 0 text.

Definition group_at (text : str) (p : nat) : str :=
  firstn 11 (skipn (p + 8) text).

(** The session's application identifier reads as a string that contains
    [Spotify]. *)
Definition targets_spotify (s : session) : Prop :=
  exists appid pre post,
    source_app_user_model_id s = Returned (Some appid)
    /\ appid = pre ++ lit "Spotify" ++ post.

(** What the reader makes of the selected session. *)
Definition now_playing_of (selected : option session)
  : result (option str * option str) :=
  match selected with
  | None => Returned (None, None)
  | Some s =>
      bind_result (try_get_media_properties_async s) (fun props =>
        Returned
          (Some (strip (getattr_or_empty (title props))),
           Some (normalize_artist (strip (getattr_or_empty (artist props))))))
  end.

(** The transient indication of line 281. *)
Definition no_track_overlay : indicator :=
  Overlay (lit "no track is playing") 2000 500.

(** The world after one more indicator, one more request, a new clipboard
    content. *)
Definition shows (ind : indicator) (w : world) : world :=
  {| clipboard := clipboard w;
     indicators := indicators w ++ [ind];
     requests_sent := requests_sent w |}.

Definition sends (rq : request) (w : world) : world :=
  {| clipboard := clipboard w;
     indicators := indicators w;
     requests_sent := requests_sent w ++ [rq] |}.

Definition copies (url : str) (w : world) : world :=
  {| clipboard := url;
     indicators := indicators w;
     requests_sent := requests_sent w |}.

(** The query line 284 builds. *)
Definition share_query (track artist : option str) : str :=
  strip (format_field track ++ lit " " ++ format_field artist).

(** The two modal boxes of the Share action. *)
Definition error_box (e : exn) : indicator :=
  ErrorBox APP_NAME (lit "Error: " ++ exn_message e).

Definition not_found_box : indicator :=
  ErrorBox APP_NAME (lit "Couldn't find a YouTube result.").

(** The state with no overlay; Tk's counters are where they are. *)
Definition quiet_state (nw nt : nat) : App.app :=
  {| App._overlay := None; App._overlay_after_id := None;
     App._fade_after_id := None; App.windows := []; App.timers := [];
     App.next_window := nw; App.next_timer := nt |}.

(** The state with one overlay alive and one timer pending for it; and the
    state [_show_overlay] leaves when it starts from a state with no stale
    timer. *)
Definition fading_state (ov : nat) (text : str) (alpha : Z)
  (tid : nat) (ms i step_ms : Z) (oa fa : option nat) (nw nt : nat)
  : App.app :=
  {| App._overlay := Some ov;
     App._overlay_after_id := oa;
     App._fade_after_id := fa;
     App.windows :=
       [{| App.window_id := ov; App.window_text := text;
           App.window_alpha_step := alpha |}];
     App.timers :=
       [{| App.timer_id := tid; App.timer_ms := ms;
           App.timer_callback :=
             {| App.cb_overlay := ov; App.cb_step := i;
                App.cb_step_ms := step_ms |} |}];
     App.next_window := nw;
     App.next_timer := nt |}.

Definition shown_state (text : str) (duration_ms fade_ms : Z) (nw nt : nat)
  : App.app :=
  fading_state nw text 0 nt (Z.max 0 (duration_ms - fade_ms)) 1
    (Z.max 10 (Z.quot fade_ms App.steps)) (Some nt) None (S nw) (S nt).

Arguments strip : simpl never.

(** * Properties *)

(** ** Strings *)

Lemma str_eqb_eq (a b : str) : str_eqb a b = true <-> a = b.
Proof.
  revert b; induction a as [|x a IH]; intros [|y b]; simpl;
    try (split; [discriminate | discriminate]); try tauto.
  unfold char_eqb; rewrite andb_true_iff, N.eqb_eq, IH.
  split; [intros [-> ->]; reflexivity | intros [= -> ->]; auto].
Qed.

Lemma str_in_In (v : str) (ids : list str) : str_in v ids = true <-> In v ids.
Proof.
  unfold str_in; rewrite existsb_exists; split.
  - intros (x & Hx & E); apply str_eqb_eq in E; subst; assumption.
  - intros H; exists v; split; [assumption | apply str_eqb_eq; reflexivity].
Qed.

Lemma str_in_not_In (v : str) (ids : list str) :
  str_in v ids = false <-> ~ In v ids.
Proof.
  rewrite <- str_in_In; destruct (str_in v ids); split; congruence.
Qed.

Lemma starts_with_spec (p s : str) :
  starts_with p s = true <-> exists t, s = p ++ t.
Proof.
  revert s; induction p as [|x p IH]; intros s; simpl.
  - split; [intros _; exists s; reflexivity | reflexivity].
  - destruct s as [|y s].
    + split; [discriminate | intros (t & E); discriminate].
    + unfold char_eqb; rewrite andb_true_iff, N.eqb_eq, IH; split.
      * intros (-> & t & ->); exists t; reflexivity.
      * intros (t & [= -> ->]); split; [reflexivity | exists t; reflexivity].
Qed.

Lemma contains_spec (needle hay : str) :
  contains needle hay = true <->
  exists pre post, hay = pre ++ needle ++ post.
Proof.
  induction hay as [|c hay IH].
  - simpl; rewrite orb_false_r, starts_with_spec; split.
    + intros (t & E); exists [], t; assumption.
    + intros (pre & post & E); destruct pre as [|x pre]; [|discriminate].
      exists post; assumption.
  - simpl contains; rewrite orb_true_iff, starts_with_spec, IH; split.
    + intros [(t & E) | (pre & post & E)].
      * exists [], t; assumption.
      * exists (c :: pre), post; simpl; rewrite E; reflexivity.
    + intros (pre & post & E); destruct pre as [|x pre].
      * left; exists post; assumption.
      * right; injection E as -> ->; exists pre, post; reflexivity.
Qed.

Lemma lstrip_head_ok (s : str) : head_ok s -> lstrip s = s.
Proof. destruct s as [|c s]; simpl; [tauto | intros ->; reflexivity]. Qed.

Lemma lstrip_cases (s : str) : lstrip s = [] \/ head_ok (lstrip s).
Proof.
  induction s as [|c s IH]; simpl; [left; reflexivity|].
  destruct (is_space c) eqn:E; [assumption | right; simpl; assumption].
Qed.

Lemma head_ok_app (a b : str) : head_ok a -> head_ok (a ++ b).
Proof. destruct a; simpl; tauto. Qed.

Lemma lstrip_snoc (u : str) (c : char) :
  is_space c = false -> exists u', lstrip (u ++ [c]) = u' ++ [c].
Proof.
  intros Hc; induction u as [|x u IH]; simpl.
  - rewrite Hc; exists []; reflexivity.
  - destruct (is_space x); [exact IH | exists (x :: u); reflexivity].
Qed.

Lemma rstrip_head_ok (s : str) :
  head_ok s -> head_ok (rstrip s) /\ head_ok (rev (rstrip s)).
Proof.
  destruct s as [|c s]; simpl; [tauto|]; intros Hc.
  unfold rstrip; simpl rev at 2; rewrite rev_involutive.
  destruct (lstrip_snoc (rev s) c Hc) as (u & E); split.
  - rewrite E, rev_app_distr; simpl; assumption.
  - destruct (lstrip_cases (rev s ++ [c])) as [Z | H]; [|exact H].
    rewrite E in Z; destruct u; discriminate.
Qed.

Lemma strip_cases (s : str) :
  strip s = [] \/ (head_ok (strip s) /\ head_ok (rev (strip s))).
Proof.
  unfold strip; destruct (lstrip_cases s) as [-> | H].
  - left; reflexivity.
  - right; apply rstrip_head_ok; assumption.
Qed.

Lemma strip_clean (s : str) : head_ok s -> head_ok (rev s) -> strip s = s.
Proof.
  intros H1 H2; unfold strip, rstrip.
  rewrite (lstrip_head_ok _ H1), (lstrip_head_ok _ H2); apply rev_involutive.
Qed.

Lemma strip_truthy_clean (s : str) :
  str_truthy (strip s) = true ->
  head_ok (strip s) /\ head_ok (rev (strip s)).
Proof.
  destruct (strip_cases s) as [-> | H]; [discriminate | intros _; exact H].
Qed.

(** Stripping only removes characters: what holds of every character of
    [s] holds of every character of [strip s]. *)
Lemma lstrip_Forall (P : char -> Prop) (s : str) :
  Forall P s -> Forall P (lstrip s).
Proof.
  induction 1 as [|c s Hc Hs IH]; simpl; [constructor|].
  destruct (is_space c); [assumption | constructor; assumption].
Qed.

Lemma strip_Forall (P : char -> Prop) (s : str) :
  Forall P s -> Forall P (strip s).
Proof.
  intros H; unfold strip, rstrip.
  apply Forall_rev, lstrip_Forall, Forall_rev, lstrip_Forall; assumption.
Qed.

Lemma lstrip_decompose (s : str) :
  exists l, s = l ++ lstrip s /\ all_space l.
Proof.
  induction s as [|c s (l & E & F)]; simpl.
  - exists []; split; [reflexivity | constructor].
  - destruct (is_space c) eqn:C.
    + exists (c :: l); split; [simpl; rewrite <- E; reflexivity|].
      constructor; assumption.
    + exists []; split; [reflexivity | constructor].
Qed.

Lemma rstrip_decompose (s : str) :
  exists r, s = rstrip s ++ r /\ all_space r.
Proof.
  destruct (lstrip_decompose (rev s)) as (l & E & F).
  exists (rev l); split; [|apply Forall_rev; exact F].
  unfold rstrip; rewrite <- rev_app_distr, <- E, rev_involutive; reflexivity.
Qed.

(** [strip] removes a run of whitespace at each end, and what is left is
    empty or begins and ends with a character that is not whitespace. *)
Lemma strip_decompose (s : str) :
  exists l r,
    s = l ++ strip s ++ r /\ all_space l /\ all_space r
    /\ (strip s = [] \/ clean (strip s)).
Proof.
  destruct (lstrip_decompose s) as (l & El & Fl).
  destruct (rstrip_decompose (lstrip s)) as (r & Er & Fr).
  exists l, r; repeat split; try assumption.
  - unfold strip; rewrite <- Er; exact El.
  - apply strip_cases.
Qed.

(** ** Artist normalization *)

Lemma split_seps_not_nil (s : str) : split_seps s <> [].
Proof.
  induction s as [|c s IH]; simpl; [discriminate|].
  destruct (is_sep c); [discriminate|].
  destruct (split_seps s); [congruence | discriminate].
Qed.

Lemma split_seps_no_sep (s : str) : Forall no_sep (split_seps s).
Proof.
  induction s as [|c s IH]; simpl.
  - repeat constructor.
  - destruct (is_sep c) eqn:E.
    + constructor; [constructor | assumption].
    + destruct (split_seps s) as [|seg segs].
      * repeat constructor; assumption.
      * inversion IH; subst; constructor; [constructor|]; assumption.
Qed.

Lemma split_seps_id (s : str) : no_sep s -> split_seps s = [s].
Proof.
  induction 1 as [|c s Hc Hs IH]; simpl; [reflexivity|].
  rewrite Hc, IH; reflexivity.
Qed.

Lemma weave_split_seps (s : str) :
  weave (split_seps s) (filter is_sep s) = s.
Proof.
  induction s as [|c s IH]; simpl; [reflexivity|].
  destruct (is_sep c) eqn:E; simpl.
  - rewrite IH; reflexivity.
  - pose proof (split_seps_not_nil s) as N.
    destruct (split_seps s) as [|seg segs]; [congruence|].
    simpl in IH |- *; destruct (filter is_sep s); simpl; rewrite IH; reflexivity.
Qed.

Lemma map_filter_comm {A B} (f : A -> B) (p : B -> bool) (l : list A) :
  map f (filter (fun a => p (f a)) l) = filter p (map f l).
Proof.
  induction l as [|a l IH]; simpl; [reflexivity|].
  destruct (p (f a)); simpl; rewrite IH; reflexivity.
Qed.

Lemma join_no_sep (sep : str) (parts : list str) :
  no_sep sep -> Forall no_sep parts -> no_sep (join sep parts).
Proof.
  intros Hsep; induction 1 as [|p rest Hp Hrest IH]; simpl; [constructor|].
  destruct rest as [|q rest]; [assumption|].
  apply Forall_app; split; [assumption|].
  apply Forall_app; split; assumption.
Qed.

Lemma join_clean (sep : str) (parts : list str) :
  parts <> [] -> Forall clean parts -> clean (join sep parts).
Proof.
  intros N H; induction H as [|p rest Hp Hrest IH]; [congruence|].
  destruct rest as [|q rest]; [exact Hp|].
  assert (C : clean (join sep (q :: rest))) by (apply IH; discriminate).
  change (join sep (p :: q :: rest)) with (p ++ sep ++ join sep (q :: rest)).
  destruct Hp as [Hp1 Hp2], C as [C1 C2]; split.
  - apply head_ok_app; assumption.
  - rewrite !rev_app_distr, <- app_assoc; apply head_ok_app; assumption.
Qed.

Lemma head_ok_truthy (s : str) : head_ok s -> str_truthy s = true.
Proof. destruct s; simpl; [tauto | reflexivity]. Qed.

Lemma kept_segments_clean (artist : str) :
  Forall clean (kept_segments artist).
Proof.
  apply Forall_forall; intros p Hp.
  apply in_map_iff in Hp; destruct Hp as (q & <- & Hq).
  apply filter_In in Hq; destruct Hq as [_ T].
  apply strip_truthy_clean; assumption.
Qed.

Lemma kept_segments_no_sep (artist : str) :
  Forall no_sep (kept_segments artist).
Proof.
  apply Forall_forall; intros p Hp.
  apply in_map_iff in Hp; destruct Hp as (q & <- & Hq).
  apply filter_In in Hq; destruct Hq as [Hq _].
  apply strip_Forall.
  pose proof (split_seps_no_sep artist) as F.
  rewrite Forall_forall in F; apply F; assumption.
Qed.

Lemma normalize_artist_unchanged (artist : str) :
  no_sep artist -> strip artist = artist -> normalize_artist artist = artist.
Proof.
  intros Hs Ht; unfold normalize_artist.
  rewrite (split_seps_id artist Hs); simpl; rewrite Ht.
  destruct artist as [|c s]; simpl; [reflexivity|].
  rewrite Ht; reflexivity.
Qed.

Lemma normalize_artist_cases (artist : str) :
  normalize_artist artist = artist
  \/ (normalize_artist artist = join (lit ", ") (kept_segments artist)
      /\ clean (normalize_artist artist)
      /\ no_sep (normalize_artist artist)).
Proof.
  unfold normalize_artist; fold (kept_segments artist).
  destruct (kept_segments artist) as [|p rest] eqn:E.
  - left; reflexivity.
  - right.
    assert (C : clean (join (lit ", ") (p :: rest))).
    { apply join_clean; [discriminate|].
      rewrite <- E; apply kept_segments_clean. }
    assert (S : no_sep (join (lit ", ") (p :: rest))).
    { apply join_no_sep; [repeat constructor|].
      rewrite <- E; apply kept_segments_no_sep. }
    unfold str_or; rewrite (head_ok_truthy _ (proj1 C)); auto.
Qed.

(** C3.  For every artist string, normalization is the specification's
    split / trim / drop empties / join with ", " / fall back to the raw
    string; the segments are the pieces of the string between its [;] and
    [/] separators (none contains a separator, and putting the separators
    back between them gives the string again); trimming a segment removes
    whitespace at its two ends only, as far as it goes; and a string with
    no separator and no surrounding whitespace is returned unchanged. *)
Theorem normalize_artist_meets_spec :
  forall artist : str,
    normalize_artist artist = normalize_artist_spec artist
    /\ Forall no_sep (split_seps artist)
    /\ weave (split_seps artist) (filter is_sep artist) = artist
    /\ (forall segment,
          exists l r,
            segment = l ++ strip segment ++ r /\ all_space l /\ all_space r
            /\ (strip segment = [] \/ clean (strip segment)))
    /\ (no_sep artist -> strip artist = artist ->
        normalize_artist artist = artist).
Proof.
  intros artist; split; [|split; [|split; [|split]]].
  - unfold normalize_artist, normalize_artist_spec, str_or.
    rewrite map_filter_comm.
    destruct (join (lit ", ") (filter str_truthy (map strip (split_seps artist))));
      reflexivity.
  - apply split_seps_no_sep.
  - apply weave_split_seps.
  - apply strip_decompose.
  - apply normalize_artist_unchanged.
Qed.

Lemma normalize_artist_meets_spec_witness :
  no_sep (lit "Daft Punk") /\ strip (lit "Daft Punk") = lit "Daft Punk"
  /\ normalize_artist (lit "Daft Punk") = lit "Daft Punk"
  /\ normalize_artist (lit " A1;A2 / ;A3") = lit "A1, A2, A3".
Proof.
  assert (S : no_sep (lit "Daft Punk")) by (repeat constructor).
  assert (T : strip (lit "Daft Punk") = lit "Daft Punk") by reflexivity.
  split; [exact S | split; [exact T | split]].
  - exact (proj2 (proj2 (proj2 (proj2
             (normalize_artist_meets_spec (lit "Daft Punk"))))) S T).
  - reflexivity.
Defined.

(** C10.  Artist normalization is idempotent: normalizing a normalized
    string changes nothing. *)
Theorem normalize_artist_idempotent :
  forall a : str,
    normalize_artist (normalize_artist a) = normalize_artist a.
Proof.
  intros a; destruct (normalize_artist_cases a) as [E | (_ & [C1 C2] & S)].
  - rewrite E; exact E.
  - apply normalize_artist_unchanged; [exact S|].
    apply strip_clean; assumption.
Qed.

(** ** Scanning the response body *)

Lemma finditer_from_skipn (k : nat) (body : str) :
  finditer_from k body = finditer (skipn k body).
Proof.
  revert k; induction body as [|c body IH]; intros [|k]; try reflexivity.
  simpl; apply IH.
Qed.

Lemma finditer_nil : finditer [] = [].
Proof. reflexivity. Qed.

Lemma finditer_match (body vid : str) :
  match_here body = Some vid ->
  finditer body = vid :: finditer (skipn 19 body).
Proof.
  destruct body as [|c body]; [discriminate|]; intros H.
  unfold finditer at 1; simpl finditer_from; rewrite H.
  rewrite finditer_from_skipn; reflexivity.
Qed.

Lemma finditer_no_match (c : char) (body : str) :
  match_here (c :: body) = None -> finditer (c :: body) = finditer body.
Proof.
  intros H; unfold finditer at 1; simpl finditer_from; rewrite H; reflexivity.
Qed.

Lemma forallb_id_chars (vid : str) :
  forallb is_id_char vid = true <-> id_chars vid.
Proof. unfold id_chars; rewrite forallb_forall, Forall_forall; tauto. Qed.

Lemma skipn_marker (t : str) : skipn 8 (marker ++ t) = t.
Proof. reflexivity. Qed.

Lemma match_here_spec (body vid : str) :
  match_here body = Some vid <->
  exists post,
    body = marker ++ vid ++ post /\ length vid = 11 /\ id_chars vid.
Proof.
  unfold match_here; split.
  - destruct (starts_with marker body) eqn:P; [|discriminate].
    apply starts_with_spec in P; destruct P as (t & ->).
    rewrite skipn_marker.
    destruct (length (firstn 11 t) =? 11) eqn:L; [|discriminate].
    destruct (forallb is_id_char (firstn 11 t)) eqn:F; [|discriminate].
    cbn [andb]; intros H.
    assert (E : vid = firstn 11 t) by congruence; subst vid.
    clear H; exists (skipn 11 t).
    rewrite firstn_skipn; apply Nat.eqb_eq in L; apply forallb_id_chars in F.
    auto.
  - intros (post & -> & L & F).
    assert (P : starts_with marker (marker ++ vid ++ post) = true)
      by (apply starts_with_spec; eexists; reflexivity).
    rewrite P.
    rewrite skipn_marker.
    rewrite firstn_app, <- L, firstn_all, Nat.sub_diag; simpl firstn.
    rewrite app_nil_r, L.
    apply forallb_id_chars in F; rewrite F; reflexivity.
Qed.

Lemma match_at_skipn (body : str) (p : nat) (vid : str) :
  match_at body p vid <-> match_here (skipn p body) = Some vid /\ p <= length body.
Proof.
  rewrite match_here_spec; split.
  - intros (pre & post & -> & <- & L & F); split.
    + exists post; rewrite skipn_app, Nat.sub_diag, skipn_all; auto.
    + rewrite length_app; lia.
  - intros [(post & E & L & F) Hp].
    exists (firstn p body), post; rewrite <- E, firstn_skipn.
    rewrite firstn_length_le by assumption; auto.
Qed.

Lemma match_here_nil : match_here [] = None.
Proof. reflexivity. Qed.

Lemma match_here_skipn_Some (body : str) (p : nat) (vid : str) :
  match_here (skipn p body) = Some vid -> match_at body p vid.
Proof.
  intros H; apply match_at_skipn; split; [assumption|].
  destruct (Nat.le_gt_cases p (length body)) as [L | G]; [assumption|].
  rewrite skipn_all2 in H by lia; discriminate.
Qed.

(** The scan finds nothing exactly when the pattern matches nowhere. *)
Lemma finditer_from_empty (body : str) (k : nat) :
  finditer_from k body = [] <->
  forall p, k <= p -> match_here (skipn p body) = None.
Proof.
  revert k; induction body as [|c body IH]; intros k.
  - simpl; split; [intros _ p _; destruct p; reflexivity | reflexivity].
  - destruct k as [|k]; simpl finditer_from.
    + destruct (match_here (c :: body)) eqn:M.
      * split; [discriminate|]; intros H.
        specialize (H 0 (Nat.le_refl 0)); simpl in H; congruence.
      * rewrite IH; split; intros H p Hp.
        -- destruct p as [|p]; [exact M | apply H; lia].
        -- apply (H (S p)); lia.
    + rewrite IH; split; intros H p Hp.
      * destruct p as [|p]; [lia | apply H; lia].
      * apply (H (S p)); lia.
Qed.

Lemma finditer_empty_iff (body : str) :
  finditer body = [] <-> ~ has_watch_id body.
Proof.
  unfold finditer; rewrite finditer_from_empty; split.
  - intros H (p & vid & M); apply match_at_skipn in M; destruct M as [M _].
    rewrite H in M by lia; discriminate.
  - intros N p _; destruct (match_here (skipn p body)) as [vid|] eqn:M;
      [|reflexivity].
    exfalso; apply N; exists p, vid; apply match_here_skipn_Some; assumption.
Qed.

(** The first element of the scan is the group of the leftmost match. *)
Lemma finditer_from_first (body : str) (k p : nat) (vid : str) :
  k <= p ->
  (forall q, k <= q -> q < p -> match_here (skipn q body) = None) ->
  match_here (skipn p body) = Some vid ->
  finditer_from k body = vid :: finditer (skipn (p + 19) body).
Proof.
  revert k p; induction body as [|c body IH]; intros k p Hk Hnone Hp.
  - destruct p; discriminate.
  - destruct k as [|k]; simpl finditer_from.
    + destruct p as [|p].
      * simpl in Hp; rewrite Hp, finditer_from_skipn; reflexivity.
      * assert (M : match_here (c :: body) = None)
          by (apply (Hnone 0); lia).
        rewrite M.
        apply (IH 0 p); [lia | | exact Hp].
        intros q _ Hq; apply (Hnone (S q)); lia.
    + destruct p as [|p]; [lia|].
      apply (IH k p); [lia | | exact Hp].
      intros q Hq1 Hq2; apply (Hnone (S q)); lia.
Qed.

(** A match is taken by the scan whenever no match begins in the eighteen
    characters before it. *)
Lemma finditer_from_reaches (body : str) (k p : nat) (vid : str) :
  k <= p ->
  (forall q, q < p -> p < q + 19 -> match_here (skipn q body) = None) ->
  match_here (skipn p body) = Some vid ->
  exists before,
    finditer_from k body = before ++ vid :: finditer (skipn (p + 19) body).
Proof.
  revert k p; induction body as [|c body IH]; intros k p Hk Hnone Hp.
  - destruct p; discriminate.
  - destruct k as [|k]; simpl finditer_from.
    + destruct p as [|p].
      * simpl in Hp; rewrite Hp, finditer_from_skipn; exists []; reflexivity.
      * assert (W : forall q, q < p -> p < q + 19 ->
                      match_here (skipn q body) = None)
          by (intros q Hq1 Hq2; apply (Hnone (S q)); lia).
        destruct (match_here (c :: body)) as [u|] eqn:M.
        -- assert (18 <= p).
           { destruct (Nat.le_gt_cases 18 p) as [L | G]; [assumption|].
             assert (M' : match_here (c :: body) = None)
               by (apply (Hnone 0); lia).
             congruence. }
           destruct (IH 18 p) as (before & E); [lia | exact W | exact Hp|].
           exists (u :: before); rewrite E; reflexivity.
        -- apply (IH 0 p); [lia | exact W | exact Hp].
    + destruct p as [|p]; [lia|].
      apply (IH k p); [lia | | exact Hp].
      intros q Hq1 Hq2; apply (Hnone (S q)); lia.
Qed.

(** ** Collecting the identifiers *)

Lemma add_id_In (ids : list str) (vid x : str) :
  In x (add_id ids vid) <-> In x ids \/ x = vid.
Proof.
  unfold add_id; destruct (str_in vid ids) eqn:E.
  - apply str_in_In in E; split; [auto | intros [H | ->]; assumption].
  - rewrite in_app_iff; simpl; split; intros [H | H]; auto.
    + destruct H as [<- | []]; auto.
Qed.

Lemma fold_add_id_In (ms ids : list str) (x : str) :
  In x (fold_left add_id ms ids) <-> In x ids \/ In x ms.
Proof.
  revert ids; induction ms as [|m ms IH]; intros ids; simpl.
  - tauto.
  - rewrite IH, add_id_In; split; intros H; intuition auto.
Qed.

Lemma fold_add_id_NoDup (ms ids : list str) :
  NoDup ids -> NoDup (fold_left add_id ms ids).
Proof.
  revert ids; induction ms as [|m ms IH]; intros ids H; simpl; [assumption|].
  apply IH; unfold add_id; destruct (str_in m ids) eqn:E; [assumption|].
  apply str_in_not_In in E.
  apply NoDup_app; [assumption | repeat constructor; simpl; tauto|].
  intros x Hx [<- | []]; contradiction.
Qed.

Lemma fold_add_id_extends (ms ids : list str) :
  exists ext, fold_left add_id ms ids = ids ++ ext.
Proof.
  revert ids; induction ms as [|m ms IH]; intros ids; simpl.
  - exists []; rewrite app_nil_r; reflexivity.
  - destruct (IH (add_id ids m)) as (ext & ->).
    unfold add_id; destruct (str_in m ids).
    + exists ext; reflexivity.
    + exists (m :: ext); rewrite <- app_assoc; reflexivity.
Qed.

Lemma collect_ids_In (ms : list str) (x : str) :
  In x (collect_ids ms) <-> In x ms.
Proof. unfold collect_ids; rewrite fold_add_id_In; simpl; tauto. Qed.

Lemma collect_ids_NoDup (ms : list str) : NoDup (collect_ids ms).
Proof. apply fold_add_id_NoDup; constructor. Qed.

(** An identifier enters the list when it is first seen, right after the
    identifiers of everything seen before it. *)
Lemma collect_ids_first_seen (earlier later : list str) (vid : str) :
  ~ In vid earlier ->
  exists ext,
    collect_ids (earlier ++ vid :: later) = collect_ids earlier ++ vid :: ext.
Proof.
  intros N; unfold collect_ids; rewrite fold_left_app; simpl.
  fold (collect_ids earlier).
  assert (E : add_id (collect_ids earlier) vid = collect_ids earlier ++ [vid]).
  { unfold add_id.
    replace (str_in vid (collect_ids earlier)) with false; [reflexivity|].
    symmetry; apply str_in_not_In; rewrite collect_ids_In; assumption. }
  rewrite E.
  destruct (fold_add_id_extends later (collect_ids earlier ++ [vid]))
    as (ext & ->).
  exists ext; rewrite <- app_assoc; reflexivity.
Qed.

Lemma collect_ids_head (vid : str) (later : list str) :
  exists ext, collect_ids (vid :: later) = vid :: ext.
Proof.
  destruct (collect_ids_first_seen [] later vid) as (ext & E); [simpl; tauto|].
  exists ext; exact E.
Qed.

Lemma first_result_of_first_match (body : str) (p : nat) (vid : str) :
  match_at body p vid ->
  (forall q u, q < p -> ~ match_at body q u) ->
  first_result_of 200 body = Some (watch_url vid).
Proof.
  intros M N; apply match_at_skipn in M; destruct M as [M Hp].
  unfold first_result_of; simpl negb; cbv iota.
  unfold finditer.
  rewrite (finditer_from_first body 0 p vid); [| lia | | exact M].
  - destruct (collect_ids_head vid (finditer (skipn (p + 19) body)))
      as (ext & ->); reflexivity.
  - intros q _ Hq; destruct (match_here (skipn q body)) as [u|] eqn:E;
      [|reflexivity].
    exfalso; apply (N q u Hq); apply match_here_skipn_Some; assumption.
Qed.

Lemma youtube_first_result_url_returned
  (network : request -> result response) (query : str) (w : world)
  (resp : response) :
  network (search_request query) = Returned resp ->
  youtube_first_result_url network query w
  = (Returned (first_result_of (status_code resp) (text resp)),
     {| clipboard := clipboard w;
        indicators := indicators w;
        requests_sent := requests_sent w ++ [search_request query] |}).
Proof.
  intros H; unfold youtube_first_result_url, bind, requests_get, ret.
  rewrite H; reflexivity.
Qed.



Lemma finditer_from_sound (body : str) (k : nat) (vid : str) :
  In vid (finditer_from k body) ->
  exists p, k <= p /\ match_here (skipn p body) = Some vid.
Proof.
  revert k; induction body as [|c body IH]; intros k; simpl; [tauto|].
  destruct k as [|k].
  - destruct (match_here (c :: body)) as [u|] eqn:M.
    + intros [<- | H].
      * exists 0; split; [lia | exact M].
      * destruct (IH _ H) as (p & _ & Hp); exists (S p); split; [lia | exact Hp].
    + intros H; destruct (IH _ H) as (p & _ & Hp).
      exists (S p); split; [lia | exact Hp].
  - intros H; destruct (IH _ H) as (p & Hk & Hp).
    exists (S p); split; [lia | exact Hp].
Qed.

Lemma finditer_valid (body vid : str) :
  In vid (finditer body) -> length vid = 11 /\ id_chars vid.
Proof.
  intros H; destruct (finditer_from_sound body 0 vid H) as (p & _ & M).
  apply match_here_spec in M; destruct M as (post & _ & L & F); auto.
Qed.

Lemma collect_ids_nil_iff (ms : list str) : collect_ids ms = [] <-> ms = [].
Proof.
  split; [|intros ->; reflexivity].
  destruct ms as [|m ms]; [reflexivity|].
  destruct (collect_ids_head m ms) as (ext & ->); discriminate.
Qed.

Lemma first_result_of_cases (status : Z) (body : str) :
  (first_result_of status body = None
   /\ (status <> 200%Z \/ ~ has_watch_id body))
  \/ (exists vid,
        first_result_of status body = Some (watch_url vid)
        /\ status = 200%Z /\ has_watch_id body
        /\ length vid = 11 /\ id_chars vid).
Proof.
  unfold first_result_of; destruct (status =? 200)%Z eqn:E; simpl negb; cbv iota.
  - apply Z.eqb_eq in E.
    destruct (collect_ids (finditer body)) as [|vid ids] eqn:C.
    + left; split; [reflexivity|]; right.
      apply finditer_empty_iff, collect_ids_nil_iff; assumption.
    + right; exists vid.
      assert (I : In vid (finditer body))
        by (apply collect_ids_In; rewrite C; left; reflexivity).
      destruct (finditer_valid body vid I) as [L F].
      repeat split; try assumption.
      destruct (finditer_from_sound body 0 vid I) as (p & _ & M).
      exists p, vid; apply match_here_skipn_Some; assumption.
  - apply Z.eqb_neq in E; left; split; [reflexivity | left; assumption].
Qed.

(** C2.  Once the search request is answered, the resolver returns and does
    not raise; it returns None exactly when the status is not 200 or the
    body holds no [watch?v=] identifier pattern, and with status 200 it
    returns None or a watch URL, whatever the body. *)
Theorem resolver_not_found_iff :
  forall (network : request -> result response) (query : str) (w : world)
         (resp : response),
    network (search_request query) = Returned resp ->
    (forall e, fst (youtube_first_result_url network query w) <> Raised e)
    /\ (fst (youtube_first_result_url network query w) = Returned None
        <-> status_code resp <> 200%Z \/ ~ has_watch_id (text resp))
    /\ (status_code resp = 200%Z ->
        fst (youtube_first_result_url network query w) = Returned None
        \/ exists vid,
             length vid = 11 /\ id_chars vid
             /\ fst (youtube_first_result_url network query w)
                = Returned (Some (watch_url vid))).
Proof.
  intros network query w resp Hnet.
  rewrite (youtube_first_result_url_returned network query w _ Hnet).
  cbn [fst].
  destruct (first_result_of_cases (status_code resp) (text resp))
    as [[-> D] | (vid & -> & S & H & L & F)].
  - split; [discriminate | split; [tauto | intros _; left; reflexivity]].
  - split; [discriminate | split].
    + split; [discriminate | intros [N | N]; contradiction].
    + intros _; right; exists vid; auto.
Qed.

Lemma resolver_not_found_iff_witness :
  let network := fun _ : request =>
    Returned {| status_code := 200; text := lit "<html>watch?v=short</html>" |} in
  let w := {| clipboard := []; indicators := []; requests_sent := [] |} in
  fst (youtube_first_result_url network (lit "Song") w) = Returned None
  /\ ~ has_watch_id (lit "<html>watch?v=short</html>").
Proof.
  intros network w.
  pose proof (resolver_not_found_iff network (lit "Song") w _ eq_refl)
    as (_ & Iff & _).
  assert (R : fst (youtube_first_result_url network (lit "Song") w)
              = Returned None) by reflexivity.
  split; [exact R|].
  destruct (proj1 Iff R) as [S | N]; [exfalso; apply S; reflexivity | exact N].
Defined.

(** ** Over-long tokens *)

Lemma skipn_past_match (pre vid rest : str) :
  length vid = 11 ->
  skipn (length pre + 19) (pre ++ marker ++ vid ++ rest) = rest.
Proof.
  intros L.
  replace (pre ++ marker ++ vid ++ rest) with ((pre ++ marker ++ vid) ++ rest)
    by (rewrite <- !app_assoc; reflexivity).
  assert (E : length (pre ++ marker ++ vid) = length pre + 19)
    by (rewrite !length_app, L; reflexivity).
  rewrite skipn_app, E, Nat.sub_diag, <- E, skipn_all; reflexivity.
Qed.

Lemma overlong_match_at (pre run post : str) :
  id_chars run -> 11 < length run ->
  match_at (pre ++ marker ++ run ++ post) (length pre) (firstn 11 run).
Proof.
  intros F L; exists pre, (skipn 11 run ++ post); repeat split.
  - rewrite (app_assoc (firstn 11 run)), firstn_skipn; reflexivity.
  - apply firstn_length_le; lia.
  - unfold id_chars in *; rewrite <- (firstn_skipn 11 run) in F.
    apply Forall_app in F; tauto.
Qed.

(** C9, as stated, fails: the marker at offset 16 is followed by thirteen
    identifier characters, yet its first eleven are never extracted; the
    earlier match [AAAAAAAAwat] ends inside the marker and the scan resumes
    after it. *)
Lemma overlong_token_counterexample :
  let pre := lit "watch?v=AAAAAAAA" in
  let run := lit "BBBBBBBBBBBBB" in
  let body := pre ++ marker ++ run ++ [] in
  id_chars run /\ 11 < length run
  /\ body = lit "watch?v=AAAAAAAAwatch?v=BBBBBBBBBBBBB"
  /\ finditer body = [lit "AAAAAAAAwat"]
  /\ ~ In (firstn 11 run) (collect_ids (finditer body))
  /\ first_result_of 200 body = Some (watch_url (lit "AAAAAAAAwat")).
Proof.
  cbv zeta; split; [repeat constructor|].
  split; [simpl; lia|].
  split; [reflexivity|].
  split; [reflexivity|].
  split; [|reflexivity].
  intros H; vm_compute in H; destruct H as [H | []]; discriminate H.
Qed.

Lemma match_here_group (text vid : str) :
  match_here text = Some vid -> vid = group_at text 0.
Proof.
  unfold match_here, group_at.
  destruct (starts_with marker text); [|discriminate].
  cbv zeta.
  destruct ((length (firstn 11 (skipn 8 text)) =? 11)
            && forallb is_id_char (firstn 11 (skipn 8 text)));
    [|discriminate].
  intros H; change (0 + 8) with 8; congruence.
Qed.

Lemma match_here_group_at (text : str) (p : nat) (vid : str) :
  match_here (skipn p text) = Some vid -> group_at text p = vid.
Proof.
  intros H; rewrite (match_here_group _ _ H); unfold group_at.
  change (0 + 8) with 8; rewrite skipn_skipn.
  replace (8 + p) with (p + 8) by lia; reflexivity.
Qed.

(** The groups of the scan are the groups at the offsets it takes. *)
Lemma finditer_from_positions (text : str) (k : nat) :
  finditer_from k text = map (group_at text) (positions_from k text).
Proof.
  revert k; induction text as [|c text IH]; intros k; [reflexivity|].
  assert (Sh : forall l, map (group_at (c :: text)) (map S l)
                         = map (group_at text) l)
    by (intros l; rewrite map_map; reflexivity).
  destruct k as [|k]; simpl finditer_from; simpl positions_from.
  - destruct (match_here (c :: text)) as [vid|] eqn:M.
    + simpl map; rewrite Sh, <- IH, <- (match_here_group _ _ M); reflexivity.
    + rewrite Sh, <- IH; reflexivity.
  - rewrite Sh, <- IH; reflexivity.
Qed.

Lemma positions_from_sound (text : str) (k p : nat) :
  In p (positions_from k text) ->
  k <= p /\ exists vid, match_here (skipn p text) = Some vid.
Proof.
  revert k p; induction text as [|c text IH]; intros k p; simpl; [tauto|].
  assert (Sh : forall k', In p (map S (positions_from k' text)) ->
                 exists p', p = S p' /\ k' <= p'
                   /\ exists vid, match_here (skipn p' text) = Some vid).
  { intros k' H; apply in_map_iff in H; destruct H as (p' & <- & H).
    exists p'; split; [reflexivity | apply IH; exact H]. }
  destruct k as [|k].
  - destruct (match_here (c :: text)) as [u|] eqn:M.
    + intros [<- | H]; [split; [lia | exists u; exact M]|].
      destruct (Sh _ H) as (p' & -> & _ & V); split; [lia | exact V].
    + intros H; destruct (Sh _ H) as (p' & -> & _ & V); split; [lia | exact V].
  - intros H; destruct (Sh _ H) as (p' & -> & L & V); split; [lia | exact V].
Qed.

(** Two matches the scan takes are nineteen characters apart at least. *)
Lemma positions_from_apart (text : str) (k q p : nat) :
  In q (positions_from k text) -> In p (positions_from k text) ->
  q < p -> q + 19 <= p.
Proof.
  revert k q p; induction text as [|c text IH]; intros k q p; simpl; [tauto|].
  assert (Sh : forall k', In q (map S (positions_from k' text)) ->
                 In p (map S (positions_from k' text)) ->
                 q < p -> q + 19 <= p).
  { intros k' Hq Hp L; apply in_map_iff in Hq, Hp.
    destruct Hq as (q' & <- & Hq), Hp as (p' & <- & Hp).
    pose proof (IH k' q' p' Hq Hp); lia. }
  destruct k as [|k]; [|apply Sh].
  destruct (match_here (c :: text)) as [u|]; [|apply Sh].
  intros [<- | Hq] [<- | Hp] L; try lia; [|apply (Sh 18); assumption].
  apply in_map_iff in Hp; destruct Hp as (p' & <- & Hp).
  apply positions_from_sound in Hp; lia.
Qed.

(** A match is taken by the scan when no match the scan takes begins in
    the eighteen characters before it. *)
Lemma positions_from_reaches (text : str) (k p : nat) (vid : str) :
  match_here (skipn p text) = Some vid ->
  k <= p ->
  (forall q, In q (positions_from k text) -> q < p -> p < q + 19 -> False) ->
  In p (positions_from k text).
Proof.
  revert k p; induction text as [|c text IH]; intros k p M Hk N.
  - destruct p; discriminate.
  - simpl positions_from in *.
    assert (Sh : forall k' p',
               p = S p' -> k' <= p' ->
               (forall q, In q (map S (positions_from k' text)) ->
                  q < p -> p < q + 19 -> False) ->
               In p (map S (positions_from k' text))).
    { intros k' p' -> Hk' N'; apply in_map, (IH k' p'); [exact M | exact Hk'|].
      intros q Hq L1 L2; apply (N' (S q)); [apply in_map; exact Hq | lia | lia]. }
    destruct k as [|k].
    + destruct (match_here (c :: text)) as [u|] eqn:Mu.
      * destruct p as [|p']; [left; reflexivity|].
        right; apply (Sh 18 p'); [reflexivity | |].
        -- destruct (Nat.le_gt_cases 18 p') as [L | G]; [exact L|].
           exfalso; apply (N 0); [left; reflexivity | lia | lia].
        -- intros q Hq; apply N; right; exact Hq.
      * destruct p as [|p']; [simpl in M; congruence|].
        apply (Sh 0 p'); [reflexivity | lia | exact N].
    + destruct p as [|p']; [lia|].
      apply (Sh k p'); [reflexivity | lia | exact N].
Qed.

(** A match the scan takes gives its group, and the scan resumes right
    after it. *)
Lemma finditer_from_taken (text : str) (k p : nat) (vid : str) :
  In p (positions_from k text) ->
  match_here (skipn p text) = Some vid ->
  exists before,
    finditer_from k text = before ++ vid :: finditer (skipn (p + 19) text).
Proof.
  revert k p; induction text as [|c text IH]; intros k p; simpl positions_from;
    [intros []|].
  assert (Sh : forall k',
             In p (map S (positions_from k' text)) ->
             match_here (skipn p (c :: text)) = Some vid ->
             exists before,
               finditer_from k' text
               = before ++ vid :: finditer (skipn (p + 19) (c :: text))).
  { intros k' H M; apply in_map_iff in H; destruct H as (p' & <- & H).
    exact (IH k' p' H M). }
  destruct k as [|k]; simpl finditer_from; [|apply Sh].
  destruct (match_here (c :: text)) as [u|] eqn:Mu; [|apply Sh].
  intros [<- | H] M.
  - simpl in M; rewrite Mu in M; injection M as ->.
    exists []; rewrite finditer_from_skipn; reflexivity.
  - destruct (Sh 18 H M) as (before & ->); exists (u :: before); reflexivity.
Qed.

(** C9, amended.  Where the marker is followed by more than eleven
    identifier characters, the pattern matches there with the first eleven
    as its group: the over-long token is truncated, not rejected.  The scan
    takes that match exactly when no match it takes begins in the eighteen
    characters before the marker (none overlaps it); then the truncated
    token is among the groups and the collected identifiers, and the scan
    resumes right after those eleven characters.  It is the resolver's
    result when no match begins before the marker at all. *)
Theorem overlong_token_truncated :
  forall pre run post : str,
    id_chars run -> 11 < length run ->
    match_at (pre ++ marker ++ run ++ post) (length pre) (firstn 11 run)
    /\ finditer (pre ++ marker ++ run ++ post)
       = map (group_at (pre ++ marker ++ run ++ post))
           (match_positions (pre ++ marker ++ run ++ post))
    /\ group_at (pre ++ marker ++ run ++ post) (length pre) = firstn 11 run
    /\ (In (length pre) (match_positions (pre ++ marker ++ run ++ post))
        <-> (forall q,
               In q (match_positions (pre ++ marker ++ run ++ post)) ->
               q < length pre -> length pre < q + 19 -> False))
    /\ (In (length pre) (match_positions (pre ++ marker ++ run ++ post)) ->
        (exists before,
           finditer (pre ++ marker ++ run ++ post)
           = before ++ firstn 11 run :: finditer (skipn 11 run ++ post))
        /\ In (firstn 11 run)
             (collect_ids (finditer (pre ++ marker ++ run ++ post))))
    /\ ((forall q u, q < length pre ->
           ~ match_at (pre ++ marker ++ run ++ post) q u) ->
        first_result_of 200 (pre ++ marker ++ run ++ post)
        = Some (watch_url (firstn 11 run))).
Proof.
  intros pre run post F L.
  pose proof (overlong_match_at pre run post F L) as M.
  pose proof (proj1 (proj1 (match_at_skipn _ _ _) M)) as Mh.
  split; [exact M | split; [apply finditer_from_positions | split]].
  - apply match_here_group_at; exact Mh.
  - split; [split | split].
    + intros I q Hq L1 L2.
      pose proof (positions_from_apart _ 0 q (length pre) Hq I L1); lia.
    + intros N; apply (positions_from_reaches _ 0 _ _ Mh); [lia | exact N].
    + intros I.
      assert (R : exists before,
                 finditer (pre ++ marker ++ run ++ post)
                 = before ++ firstn 11 run :: finditer (skipn 11 run ++ post)).
      { destruct (finditer_from_taken _ 0 _ _ I Mh) as (before & E).
        exists before; unfold finditer at 1; rewrite E.
        rewrite <- (firstn_skipn 11 run) at 2.
        rewrite <- (app_assoc (firstn 11 run)).
        rewrite skipn_past_match by (apply firstn_length_le; lia).
        reflexivity. }
      split; [exact R|].
      destruct R as (before & ->).
      apply collect_ids_In, in_or_app; right; left; reflexivity.
    + intros N; apply (first_result_of_first_match _ (length pre)); assumption.
Qed.

Lemma overlong_token_truncated_witness :
  let pre := lit "watch?v=AAAAAAwatch?v=BBBBBB" in
  let run := lit "CCCCCCCCCCCCC" in
  let body := pre ++ marker ++ run ++ [] in
  let pre' := lit "<a href=/" in
  let run' := lit "dQw4w9WgXcQ_extra" in
  let post' := lit ">x</a>" in
  id_chars run /\ 11 < length run
  /\ match_at body 14 (lit "BBBBBBwatch")
  /\ match_positions body = [0; 28]
  /\ In (lit "CCCCCCCCCCC") (collect_ids (finditer body))
  /\ first_result_of 200 (pre' ++ marker ++ run' ++ post')
     = Some (watch_url (lit "dQw4w9WgXcQ")).
Proof.
  intros pre run body pre' run' post'.
  assert (F : id_chars run) by (repeat constructor).
  assert (L : 11 < length run) by (simpl; lia).
  assert (P : match_positions body = [0; 28]) by (vm_compute; reflexivity).
  pose proof (overlong_token_truncated pre run [] F L)
    as (_ & _ & _ & Taken & Collected & _).
  split; [exact F | split; [exact L | split; [|split; [exact P | split]]]].
  - exists (lit "watch?v=AAAAAA"), (lit "?v=CCCCCCCCCCCCC").
    repeat split; repeat constructor.
  - apply Collected, Taken; fold body; rewrite P.
    intros q [<- | [<- | []]] L1 L2; simpl in L1, L2; lia.
  - assert (F' : id_chars run') by (repeat constructor).
    assert (L' : 11 < length run') by (simpl; lia).
    apply (proj2 (proj2 (proj2 (proj2 (proj2
             (overlong_token_truncated pre' run' post' F' L')))))).
    intros q u Hq H; apply match_at_skipn in H; destruct H as [H _].
    do 9 (destruct q as [|q]; [discriminate H|]).
    simpl in Hq; lia.
Defined.

(** ** The now-playing reader *)

Lemma str_or_nil (s : str) : str_or s [] = s.
Proof. destruct s; reflexivity. Qed.

Lemma appid_of_targets (s : session) :
  contains (lit "Spotify") (appid_of s) = true <-> targets_spotify s.
Proof.
  unfold appid_of, targets_spotify.
  destruct (source_app_user_model_id s) as [[appid|]|e].
  - rewrite str_or_nil, contains_spec; split.
    + intros (pre & post & E); exists appid, pre, post; auto.
    + intros (a & pre & post & [= <-] & E); exists pre, post; exact E.
  - split; [discriminate | intros (a & pre & post & E & _); discriminate].
  - split; [discriminate | intros (a & pre & post & E & _); discriminate].
Qed.

Lemma appid_of_not_targets (s : session) :
  contains (lit "Spotify") (appid_of s) = false <-> ~ targets_spotify s.
Proof.
  rewrite <- appid_of_targets.
  destruct (contains (lit "Spotify") (appid_of s)); split; congruence.
Qed.

Lemma find_spotify_none (sessions : list session) :
  (forall x, In x sessions -> ~ targets_spotify x) ->
  find_spotify sessions = None.
Proof.
  induction sessions as [|s rest IH]; intros H; simpl; [reflexivity|].
  replace (contains (lit "Spotify") (appid_of s)) with false.
  - apply IH; intros x Hx; apply H; right; exact Hx.
  - symmetry; apply appid_of_not_targets, H; left; reflexivity.
Qed.

Lemma find_spotify_first (before after : list session) (s : session) :
  targets_spotify s ->
  (forall x, In x before -> ~ targets_spotify x) ->
  find_spotify (before ++ s :: after) = Some s.
Proof.
  intros T; induction before as [|b before IH]; intros H; simpl.
  - apply appid_of_targets in T; rewrite T; reflexivity.
  - replace (contains (lit "Spotify") (appid_of b)) with false.
    + apply IH; intros x Hx; apply H; right; exact Hx.
    + symmetry; apply appid_of_not_targets, H; left; reflexivity.
Qed.

Lemma get_local_now_playing_selected
  (os : os_env) (mgr : manager) (sessions : list session) :
  import_winsdk os = Returned tt ->
  request_async os = Returned mgr ->
  get_sessions mgr = Returned sessions ->
  get_local_now_playing os
  = bind_result (select_session mgr sessions) now_playing_of.
Proof.
  intros I R S; unfold get_local_now_playing; rewrite I, R; simpl.
  rewrite S; simpl.
  destruct (select_session mgr sessions) as [[s|]|e]; reflexivity.
Qed.

(** C8.  For every list of active sessions, the session selected is the
    first one whose application identifier contains [Spotify] when there is
    one; otherwise it is what the manager reports as the current session,
    which may be none; and the reader's result is read off that session. *)
Theorem select_session_priority :
  forall (mgr : manager) (sessions : list session),
    (forall before s after,
       sessions = before ++ s :: after ->
       targets_spotify s ->
       (forall x, In x before -> ~ targets_spotify x) ->
       select_session mgr sessions = Returned (Some s))
    /\ ((forall x, In x sessions -> ~ targets_spotify x) ->
        select_session mgr sessions = get_current_session mgr)
    /\ (forall os,
          import_winsdk os = Returned tt ->
          request_async os = Returned mgr ->
          get_sessions mgr = Returned sessions ->
          get_local_now_playing os
          = bind_result (select_session mgr sessions) now_playing_of).
Proof.
  intros mgr sessions; repeat split.
  - intros before s after -> T N; unfold select_session.
    rewrite (find_spotify_first before after s T N); reflexivity.
  - intros N; unfold select_session.
    rewrite (find_spotify_none sessions N); reflexivity.
  - intros os; apply get_local_now_playing_selected.
Qed.

Lemma select_session_priority_witness :
  let chrome :=
    {| source_app_user_model_id := Returned (Some (lit "Chrome"));
       try_get_media_properties_async :=
         Returned {| title := AttrStr (lit "Video"); artist := AttrNone |} |} in
  let faulty :=
    {| source_app_user_model_id :=
         Raised (Exn (lit "OSError") (lit "access denied"));
       try_get_media_properties_async :=
         Returned {| title := AttrStr (lit "Spotify"); artist := AttrMissing |} |} in
  let spotify :=
    {| source_app_user_model_id :=
         Returned (Some (lit "SpotifyAB.SpotifyMusic_zpdnekdrzrea0!Spotify"));
       try_get_media_properties_async :=
         Returned {| title := AttrStr (lit "Song");
                     artist := AttrStr (lit "A1; A2") |} |} in
  let mgr :=
    {| get_sessions := Returned [chrome; faulty; spotify];
       get_current_session := Returned (Some chrome) |} in
  select_session mgr [chrome; faulty; spotify] = Returned (Some spotify)
  /\ select_session mgr [chrome; faulty] = Returned (Some chrome)
  /\ select_session mgr [chrome; faulty] = get_current_session mgr.
Proof.
  intros chrome faulty spotify mgr.
  assert (C : ~ targets_spotify chrome)
    by (apply appid_of_not_targets; reflexivity).
  assert (F : ~ targets_spotify faulty)
    by (apply appid_of_not_targets; reflexivity).
  assert (T : targets_spotify spotify)
    by (apply appid_of_targets; reflexivity).
  assert (N : forall x, In x [chrome; faulty] -> ~ targets_spotify x).
  { intros x [<- | [<- | []]]; assumption. }
  split; [|split].
  - exact (proj1 (select_session_priority mgr [chrome; faulty; spotify])
             [chrome; faulty] spotify [] eq_refl T N).
  - rewrite (proj1 (proj2 (select_session_priority mgr [chrome; faulty])) N).
    reflexivity.
  - exact (proj1 (proj2 (select_session_priority mgr [chrome; faulty])) N).
Defined.

(** C7, as stated, fails: with no session at all the reader returns the
    pair [(None, None)], not a pair of empty strings. *)
Lemma no_session_counterexample :
  let os :=
    {| import_winsdk := Returned tt;
       request_async :=
         Returned {| get_sessions := Returned [];
                     get_current_session := Returned None |} |} in
  get_local_now_playing os = Returned (None, None)
  /\ get_local_now_playing os <> Returned (Some [], Some []).
Proof. cbv zeta; split; [reflexivity | discriminate]. Qed.

(** C7, amended.  Whenever no session resolves (no session of the list
    targets Spotify and the manager reports no current session), the reader
    returns the pair [(None, None)]: title and artist are both absent, and
    the absent title is false for the caller's test, as an empty one is. *)
Theorem no_session_returns_none_pair :
  forall (os : os_env) (mgr : manager) (sessions : list session),
    import_winsdk os = Returned tt ->
    request_async os = Returned mgr ->
    get_sessions mgr = Returned sessions ->
    (forall x, In x sessions -> ~ targets_spotify x) ->
    get_current_session mgr = Returned None ->
    get_local_now_playing os = Returned (None, None)
    /\ (forall track artist,
          get_local_now_playing os = Returned (track, artist) ->
          truthy track = false /\ truthy track = truthy (Some [])).
Proof.
  intros os mgr sessions I R S N C.
  assert (E : get_local_now_playing os = Returned (None, None)).
  { rewrite (get_local_now_playing_selected os mgr sessions I R S).
    unfold select_session; rewrite (find_spotify_none sessions N), C.
    reflexivity. }
  split; [exact E|].
  intros track artist H; rewrite E in H; injection H as <- <-.
  split; reflexivity.
Qed.

Lemma no_session_returns_none_pair_witness :
  let chrome :=
    {| source_app_user_model_id := Returned (Some (lit "Chrome"));
       try_get_media_properties_async :=
         Returned {| title := AttrStr (lit "Video"); artist := AttrNone |} |} in
  let mgr :=
    {| get_sessions := Returned [chrome];
       get_current_session := Returned None |} in
  let os := {| import_winsdk := Returned tt; request_async := Returned mgr |} in
  get_local_now_playing os = Returned (None, None).
Proof.
  intros chrome mgr os.
  refine (proj1 (no_session_returns_none_pair os mgr [chrome]
                   eq_refl eq_refl eq_refl _ eq_refl)).
  intros x [<- | []]; apply appid_of_not_targets; reflexivity.
Defined.

(** C6, as stated, fails: an exception raised by the API itself is not
    turned into the reader's own failure.  Here requesting the manager
    raises an [OSError], and that [OSError] is what the reader raises; and
    an exception on reading a session's application identifier is not
    surfaced at all. *)
Lemma api_exception_counterexample :
  let oserror := Exn (lit "OSError") (lit "[WinError -2147023174] The RPC server is unavailable") in
  let os := {| import_winsdk := Returned tt; request_async := Raised oserror |} in
  let faulty :=
    {| source_app_user_model_id := Raised oserror;
       try_get_media_properties_async :=
         Returned {| title := AttrStr (lit "Song"); artist := AttrNone |} |} in
  let os' :=
    {| import_winsdk := Returned tt;
       request_async :=
         Returned {| get_sessions := Returned [faulty];
                     get_current_session := Returned None |} |} in
  get_local_now_playing os = Raised oserror
  /\ get_local_now_playing os <> Raised winsdk_missing
  /\ get_local_now_playing os' = Returned (None, None).
Proof. cbv zeta; split; [reflexivity | split; [discriminate | reflexivity]]. Qed.

(** C6, amended.  A missing capability (the import failing, whatever it
    raises) makes the reader raise its one [RuntimeError]; an exception
    raised by the API itself, when requesting the manager, listing the
    sessions, asking for the current session or fetching the selected
    session's media properties, reaches the caller as it was raised.  Each
    of these outcomes is a raised exception, distinct from the non-error
    result of nothing playing. *)
Theorem reader_failures :
  forall (os : os_env),
    (forall e, import_winsdk os = Raised e ->
       get_local_now_playing os = Raised winsdk_missing)
    /\ (forall e, import_winsdk os = Returned tt ->
          request_async os = Raised e ->
          get_local_now_playing os = Raised e)
    /\ (forall mgr e, import_winsdk os = Returned tt ->
          request_async os = Returned mgr ->
          get_sessions mgr = Raised e ->
          get_local_now_playing os = Raised e)
    /\ (forall mgr sessions e, import_winsdk os = Returned tt ->
          request_async os = Returned mgr ->
          get_sessions mgr = Returned sessions ->
          (forall x, In x sessions -> ~ targets_spotify x) ->
          get_current_session mgr = Raised e ->
          get_local_now_playing os = Raised e)
    /\ (forall mgr sessions s e, import_winsdk os = Returned tt ->
          request_async os = Returned mgr ->
          get_sessions mgr = Returned sessions ->
          select_session mgr sessions = Returned (Some s) ->
          try_get_media_properties_async s = Raised e ->
          get_local_now_playing os = Raised e)
    /\ (forall e, get_local_now_playing os = Raised e ->
          get_local_now_playing os <> Returned (None, None)
          /\ forall title artist,
               get_local_now_playing os <> Returned (Some title, Some artist)).
Proof.
  intros os; split; [|split; [|split; [|split; [|split; [|intros e H; split]]]]].
  - intros e I; unfold get_local_now_playing; rewrite I; reflexivity.
  - intros e I R; unfold get_local_now_playing; rewrite I, R; reflexivity.
  - intros mgr e I R S; unfold get_local_now_playing; rewrite I, R; simpl.
    rewrite S; reflexivity.
  - intros mgr sessions e I R S N C.
    rewrite (get_local_now_playing_selected os mgr sessions I R S).
    unfold select_session; rewrite (find_spotify_none sessions N), C.
    reflexivity.
  - intros mgr sessions s e I R S Sel P.
    rewrite (get_local_now_playing_selected os mgr sessions I R S), Sel.
    simpl; rewrite P; reflexivity.
  - rewrite H; discriminate.
  - intros title artist; rewrite H; discriminate.
Qed.

Lemma reader_failures_witness :
  let missing := Exn (lit "ModuleNotFoundError") (lit "No module named 'winsdk'") in
  let oserror := Exn (lit "OSError") (lit "[WinError -2147023174] The RPC server is unavailable") in
  get_local_now_playing
    {| import_winsdk := Raised missing; request_async := Raised oserror |}
  = Raised winsdk_missing
  /\ get_local_now_playing
       {| import_winsdk := Returned tt; request_async := Raised oserror |}
     = Raised oserror.
Proof.
  intros missing oserror; split.
  - exact (proj1 (reader_failures
             {| import_winsdk := Raised missing; request_async := Raised oserror |})
             missing eq_refl).
  - exact (proj1 (proj2 (reader_failures
             {| import_winsdk := Returned tt; request_async := Raised oserror |}))
             oserror eq_refl eq_refl).
Defined.

(** ** The Share action *)

Lemma watch_url_truthy (vid : str) : str_truthy (watch_url vid) = true.
Proof. reflexivity. Qed.

Lemma first_result_of_truthy (status : Z) (body url : str) :
  first_result_of status body = Some url -> str_truthy url = true.
Proof.
  destruct (first_result_of_cases status body) as [[-> _] | (vid & -> & _)];
    [discriminate | intros [= <-]; apply watch_url_truthy].
Qed.

(** C4.  Whenever the reader yields a title that is empty (or absent), the
    Share action shows the transient overlay [no track is playing] and
    nothing else: no search request is sent and the clipboard is as it
    was. *)
Theorem share_nothing_playing :
  forall (os : os_env) (network : request -> result response) (w : world)
         (track artist : option str),
    get_local_now_playing os = Returned (track, artist) ->
    truthy track = false ->
    share_song_url os network w
    = (Returned tt,
       {| clipboard := clipboard w;
          indicators := indicators w ++ [no_track_overlay];
          requests_sent := requests_sent w |}).
Proof.
  intros os network w track artist R T.
  unfold share_song_url, try_except, bind, lift.
  rewrite R, T; reflexivity.
Qed.

Lemma share_nothing_playing_witness :
  let paused :=
    {| source_app_user_model_id := Returned (Some (lit "Spotify.exe"));
       try_get_media_properties_async :=
         Returned {| title := AttrStr (lit "  "); artist := AttrNone |} |} in
  let os :=
    {| import_winsdk := Returned tt;
       request_async :=
         Returned {| get_sessions := Returned [paused];
                     get_current_session := Returned None |} |} in
  let network := fun _ : request =>
    Returned {| status_code := 200; text := lit "watch?v=XXXXXXXXXXX" |} in
  let w := {| clipboard := lit "kept"; indicators := []; requests_sent := [] |} in
  get_local_now_playing os = Returned (Some [], Some [])
  /\ share_song_url os network w
     = (Returned tt,
        {| clipboard := lit "kept";
           indicators := [no_track_overlay];
           requests_sent := [] |}).
Proof.
  intros paused os network w; split; [reflexivity|].
  exact (share_nothing_playing os network w (Some []) (Some [])
           eq_refl eq_refl).
Defined.



(** * Further properties of the code *)

(** ** The scan: bounds, soundness, dependence on the body *)

Lemma match_here_length (text vid : str) :
  match_here text = Some vid -> 19 <= length text.
Proof.
  intros H; apply match_here_spec in H; destruct H as (post & -> & L & _).
  rewrite !length_app, L; change (length marker) with 8; lia.
Qed.

Lemma starts_with_app (p x r : str) :
  length p <= length x -> starts_with p (x ++ r) = starts_with p x.
Proof.
  revert x; induction p as [|a p IH]; intros x L; [reflexivity|].
  destruct x as [|b x]; simpl in L; [lia|].
  simpl; rewrite IH by lia; reflexivity.
Qed.

(** Whether the pattern matches at the start of a text is decided by its
    first nineteen characters. *)
Lemma match_here_app (x r : str) :
  19 <= length x -> match_here (x ++ r) = match_here x.
Proof.
  intros L; unfold match_here.
  rewrite starts_with_app by (change (length marker) with 8; lia).
  rewrite skipn_app, firstn_app.
  replace (8 - length x) with 0 by lia.
  replace (11 - length (skipn 8 x)) with 0 by (rewrite length_skipn; lia).
  simpl skipn; simpl firstn; rewrite app_nil_r; reflexivity.
Qed.

Lemma finditer_from_length (body : str) (k : nat) :
  19 * length (finditer_from k body) <= length body - k.
Proof.
  revert k; induction body as [|c body IH]; intros k; simpl; [lia|].
  destruct k as [|k].
  - destruct (match_here (c :: body)) as [vid|] eqn:M.
    + apply match_here_length in M; simpl in M.
      specialize (IH 18); simpl length; lia.
    + specialize (IH 0); lia.
  - specialize (IH k); lia.
Qed.

Lemma fold_add_id_length (ms ids : list str) :
  length (fold_left add_id ms ids) <= length ids + length ms.
Proof.
  revert ids; induction ms as [|m ms IH]; intros ids; simpl; [lia|].
  specialize (IH (add_id ids m)); unfold add_id in *.
  destruct (str_in m ids); [lia|].
  rewrite length_app in IH; simpl in IH; lia.
Qed.

(** X1.  The matches of the scan do not overlap: nineteen characters of
    the body go to each, so a body holds at most a nineteenth of its length
    in matches, the collected identifiers are no more than the matches, and
    a body shorter than nineteen characters resolves to nothing whatever
    the status. *)
Theorem finditer_matches_bounded :
  forall body : str,
    19 * length (finditer body) <= length body
    /\ length (collect_ids (finditer body)) <= length (finditer body)
    /\ (length body < 19 ->
        forall status, first_result_of status body = None).
Proof.
  intros body.
  pose proof (finditer_from_length body 0) as B; fold (finditer body) in B.
  split; [lia | split].
  - apply (fold_add_id_length (finditer body) []).
  - intros S status; unfold first_result_of.
    destruct (finditer body) as [|v tl]; [|simpl in B; lia].
    destruct (negb (status =? 200)%Z); reflexivity.
Qed.

Lemma finditer_matches_bounded_witness :
  length (lit "watch?v=abc1234567") < 19
  /\ first_result_of 200 (lit "watch?v=abc1234567") = None.
Proof.
  assert (S : length (lit "watch?v=abc1234567") < 19) by (simpl; lia).
  split; [exact S|].
  exact (proj2 (proj2 (finditer_matches_bounded (lit "watch?v=abc1234567")))
           S 200%Z).
Defined.

Lemma finditer_from_head_inv (body : str) (k : nat) (vid : str)
  (tl : list str) :
  finditer_from k body = vid :: tl ->
  exists p,
    k <= p /\ match_here (skipn p body) = Some vid
    /\ forall q, k <= q -> q < p -> match_here (skipn q body) = None.
Proof.
  revert k; induction body as [|c body IH]; intros k; simpl; [discriminate|].
  destruct k as [|k].
  - destruct (match_here (c :: body)) as [u|] eqn:M.
    + intros [= -> _]; exists 0; split; [lia | split; [exact M | intros; lia]].
    + intros H; destruct (IH 0 H) as (p & _ & Hp & N).
      exists (S p); split; [lia | split; [exact Hp|]].
      intros [|q] _ Hq; [exact M | apply N; lia].
  - intros H; destruct (IH k H) as (p & Hk & Hp & N).
    exists (S p); split; [lia | split; [exact Hp|]].
    intros [|q] Hq1 Hq2; [lia | apply N; lia].
Qed.

Lemma first_result_of_Some_inv (status : Z) (body url : str) :
  first_result_of status body = Some url ->
  status = 200%Z
  /\ exists p vid,
       url = watch_url vid /\ match_at body p vid
       /\ forall q u, q < p -> ~ match_at body q u.
Proof.
  unfold first_result_of; destruct (status =? 200)%Z eqn:E;
    simpl negb; cbv iota; [|discriminate].
  intros H; apply Z.eqb_eq in E; split; [exact E|].
  destruct (finditer body) as [|v tl] eqn:F; [discriminate H|].
  destruct (collect_ids_head v tl) as (ext & C); rewrite C in H.
  injection H as <-.
  destruct (finditer_from_head_inv body 0 v tl F) as (p & _ & Hp & N).
  exists p, v; split; [reflexivity | split].
  - apply match_here_skipn_Some; exact Hp.
  - intros q u Hq M; apply match_at_skipn in M; destruct M as [M _].
    rewrite N in M by lia; discriminate.
Qed.

(** X2.  The resolver does not invent an identifier: whenever it returns a
    URL, the status was 200, the URL is forty-three characters long, and it
    is the watch URL of an identifier that stands in the body right after
    the marker, at the leftmost place where the pattern matches. *)
Theorem resolved_url_is_leftmost_match :
  forall (network : request -> result response) (query : str) (w : world)
         (resp : response) (url : str),
    network (search_request query) = Returned resp ->
    fst (youtube_first_result_url network query w) = Returned (Some url) ->
    status_code resp = 200%Z
    /\ length url = 43
    /\ exists p vid,
         url = watch_url vid /\ match_at (text resp) p vid
         /\ forall q u, q < p -> ~ match_at (text resp) q u.
Proof.
  intros network query w resp url Hnet.
  rewrite (youtube_first_result_url_returned network query w _ Hnet).
  cbn [fst]; intros [= H].
  destruct (first_result_of_Some_inv _ _ _ H) as (S & p & vid & -> & M & N).
  split; [exact S | split].
  - destruct M as (pre & post & _ & _ & L & _).
    unfold watch_url; rewrite length_app, L; reflexivity.
  - exists p, vid; auto.
Qed.

Lemma resolved_url_is_leftmost_match_witness :
  let body := lit "<a href=/watch?v=dQw4w9WgXcQ&t=1>" in
  let network := fun _ : request =>
    Returned {| status_code := 200; text := body |} in
  let w := {| clipboard := []; indicators := []; requests_sent := [] |} in
  exists p vid,
    lit "https://www.youtube.com/watch?v=dQw4w9WgXcQ" = watch_url vid
    /\ match_at body p vid.
Proof.
  intros body network w.
  destruct (resolved_url_is_leftmost_match network (lit "q") w
              {| status_code := 200; text := body |}
              (lit "https://www.youtube.com/watch?v=dQw4w9WgXcQ")
              eq_refl eq_refl) as (_ & _ & p & vid & U & M & _).
  exists p, vid; split; assumption.
Defined.

Lemma match_at_app_iff (head rest : str) (q : nat) (u : str) :
  q + 19 <= length head ->
  match_at (head ++ rest) q u <-> match_at head q u.
Proof.
  intros L; rewrite !match_at_skipn, skipn_app.
  replace (q - length head) with 0 by lia; simpl skipn.
  rewrite match_here_app by (rewrite length_skipn; lia).
  rewrite length_app; split; intros [M _]; split; try assumption; lia.
Qed.

Lemma match_at_length (body : str) (p : nat) (vid : str) :
  match_at body p vid -> p + 19 <= length body.
Proof.
  intros (pre & post & -> & <- & L & _).
  rewrite !length_app, L; change (length marker) with 8; lia.
Qed.

(** X3.  The result is decided by the body up to the end of its first
    match: once a body holds a match, whatever is appended to it (more of
    the page, a later chunk) leaves the resolver's answer as it is. *)
Theorem first_result_ignores_what_follows :
  forall (status : Z) (head rest : str),
    has_watch_id head ->
    first_result_of status (head ++ rest) = first_result_of status head.
Proof.
  intros status head rest H.
  destruct (first_result_of_cases status head)
    as [[E [S | N]] | (vid & E & S & _)].
  - rewrite E; unfold first_result_of.
    replace (status =? 200)%Z with false; [reflexivity|].
    symmetry; apply Z.eqb_neq; exact S.
  - contradiction.
  - subst status.
    destruct (first_result_of_Some_inv _ _ _ E) as (_ & p & v & U & M & N).
    rewrite E, U.
    pose proof (match_at_length _ _ _ M) as L.
    apply (first_result_of_first_match _ p).
    + apply match_at_app_iff; assumption.
    + intros q u Hq Mq; apply (N q u Hq).
      apply (match_at_app_iff head rest q u); [lia | exact Mq].
Qed.

Lemma first_result_ignores_what_follows_witness :
  first_result_of 200
    (lit "x watch?v=abc12345678" ++ lit "9 watch?v=zzz98765432")
  = first_result_of 200 (lit "x watch?v=abc12345678").
Proof.
  apply first_result_ignores_what_follows.
  exists 2, (lit "abc12345678"), (lit "x "), [].
  repeat split; repeat constructor.
Defined.

(** ** Collecting identifiers *)

Lemma fold_add_id_NoDup_id (ms ids : list str) :
  NoDup (ids ++ ms) -> fold_left add_id ms ids = ids ++ ms.
Proof.
  revert ids; induction ms as [|m ms IH]; intros ids H; simpl.
  - rewrite app_nil_r; reflexivity.
  - assert (E : add_id ids m = ids ++ [m]).
    { unfold add_id; replace (str_in m ids) with false; [reflexivity|].
      symmetry; apply str_in_not_In; intros I.
      apply NoDup_remove_2 in H; apply H, in_or_app; left; exact I. }
    rewrite E, IH; rewrite <- app_assoc; [reflexivity | exact H].
Qed.

(** X4.  Deduplication changes nothing where there is nothing to
    collapse: a list of matches without repetition is collected as it is,
    so collecting what was collected before gives the same list. *)
Theorem collect_ids_keeps_distinct :
  forall matches : list str,
    (NoDup matches -> collect_ids matches = matches)
    /\ collect_ids (collect_ids matches) = collect_ids matches.
Proof.
  intros matches.
  assert (K : forall ms, NoDup ms -> collect_ids ms = ms)
    by (intros ms H; apply (fold_add_id_NoDup_id ms []); exact H).
  split; [apply K | apply K, collect_ids_NoDup].
Qed.

Lemma collect_ids_keeps_distinct_witness :
  collect_ids [lit "abc12345678"; lit "zzz98765432"]
  = [lit "abc12345678"; lit "zzz98765432"].
Proof.
  apply (proj1 (collect_ids_keeps_distinct
                  [lit "abc12345678"; lit "zzz98765432"])).
  repeat constructor; simpl; intuition discriminate.
Defined.

(** ** The reader's results *)

Lemma strip_idempotent (s : str) : strip (strip s) = strip s.
Proof.
  destruct (strip_cases s) as [-> | [H1 H2]]; [reflexivity|].
  apply strip_clean; assumption.
Qed.

Lemma lstrip_all_space (s : str) : all_space s -> lstrip s = [].
Proof.
  induction 1 as [|c s Hc Hs IH]; simpl; [reflexivity|].
  rewrite Hc; exact IH.
Qed.

Lemma strip_nil_iff (s : str) : strip s = [] <-> all_space s.
Proof.
  split.
  - intros E; destruct (strip_decompose s) as (l & r & D & Fl & Fr & _).
    rewrite E in D; rewrite D; apply Forall_app; split; assumption.
  - intros H; unfold strip; rewrite (lstrip_all_space s H); reflexivity.
Qed.

Lemma normalize_artist_idempotent_aux (a : str) :
  normalize_artist (normalize_artist a) = normalize_artist a.
Proof.
  destruct (normalize_artist_cases a) as [E | (_ & [C1 C2] & S)].
  - rewrite E; exact E.
  - apply normalize_artist_unchanged; [exact S|].
    apply strip_clean; assumption.
Qed.

Lemma normalize_artist_stripped (a : str) :
  strip a = a -> strip (normalize_artist a) = normalize_artist a.
Proof.
  intros H; destruct (normalize_artist_cases a) as [E | (_ & [C1 C2] & _)].
  - rewrite E; exact H.
  - apply strip_clean; assumption.
Qed.

Lemma reader_result_shape_aux :
  forall (os : os_env) (track artist : option str),
    get_local_now_playing os = Returned (track, artist) ->
    (track = None /\ artist = None)
    \/ exists t a,
         track = Some t /\ artist = Some a
         /\ strip t = t /\ strip a = a /\ normalize_artist a = a.
Proof.
  intros os track artist; unfold get_local_now_playing.
  destruct (import_winsdk os) as [[]|e]; [|discriminate].
  destruct (request_async os) as [mgr|e]; [simpl|discriminate].
  destruct (get_sessions mgr) as [sessions|e]; [simpl|discriminate].
  destruct (select_session mgr sessions) as [[s|]|e]; simpl;
    [| intros [= <- <-]; left; split; reflexivity | discriminate].
  destruct (try_get_media_properties_async s) as [props|e]; simpl;
    [|discriminate].
  intros [= <- <-]; right.
  exists (strip (getattr_or_empty (title props))),
         (normalize_artist (strip (getattr_or_empty (artist props)))).
  split; [reflexivity | split; [reflexivity | split; [|split]]].
  - apply strip_idempotent.
  - apply normalize_artist_stripped, strip_idempotent.
  - apply normalize_artist_idempotent_aux.
Qed.

(** X5.  What the reader returns has one of two shapes: the pair
    (None, None), or a title and an artist that are both strings, both
    without whitespace at either end, the artist being one that
    normalization leaves as it is.  It never returns a title without an
    artist or an artist without a title. *)
Theorem reader_result_shape :
  forall (os : os_env) (track artist : option str),
    get_local_now_playing os = Returned (track, artist) ->
    (track = None /\ artist = None)
    \/ exists t a,
         track = Some t /\ artist = Some a
         /\ strip t = t /\ strip a = a /\ normalize_artist a = a.
Proof.
  intros os track artist; unfold get_local_now_playing.
  destruct (import_winsdk os) as [[]|e]; [|discriminate].
  destruct (request_async os) as [mgr|e]; [simpl|discriminate].
  destruct (get_sessions mgr) as [sessions|e]; [simpl|discriminate].
  destruct (select_session mgr sessions) as [[s|]|e]; simpl;
    [| intros [= <- <-]; left; split; reflexivity | discriminate].
  destruct (try_get_media_properties_async s) as [props|e]; simpl;
    [|discriminate].
  intros [= <- <-]; right.
  exists (strip (getattr_or_empty (title props))),
         (normalize_artist (strip (getattr_or_empty (artist props)))).
  split; [reflexivity | split; [reflexivity | split; [|split]]].
  - apply strip_idempotent.
  - apply normalize_artist_stripped, strip_idempotent.
  - apply normalize_artist_idempotent_aux.
Qed.

Lemma reader_result_shape_witness :
  let spotify :=
    {| source_app_user_model_id := Returned (Some (lit "Spotify.exe"));
       try_get_media_properties_async :=
         Returned {| title := AttrStr (lit "  Song  ");
                     artist := AttrStr (lit " A1 ;A2/ ") |} |} in
  let os :=
    {| import_winsdk := Returned tt;
       request_async :=
         Returned {| get_sessions := Returned [spotify];
                     get_current_session := Returned None |} |} in
  get_local_now_playing os = Returned (Some (lit "Song"), Some (lit "A1, A2"))
  /\ strip (lit "A1, A2") = lit "A1, A2"
  /\ normalize_artist (lit "A1, A2") = lit "A1, A2".
Proof.
  intros spotify os.
  assert (R : get_local_now_playing os
              = Returned (Some (lit "Song"), Some (lit "A1, A2")))
    by reflexivity.
  split; [exact R|].
  destruct (reader_result_shape os _ _ R)
    as [[E _] | (t & a & Et & Ea & _ & Sa & Na)]; [discriminate E|].
  injection Ea as <-; split; assumption.
Defined.

Lemma find_spotify_some (sessions : list session) (s : session) :
  In s sessions -> targets_spotify s ->
  exists s', find_spotify sessions = Some s'.
Proof.
  induction sessions as [|x rest IH]; intros I T; [destruct I|].
  simpl; destruct (contains (lit "Spotify") (appid_of x)) eqn:C.
  - exists x; reflexivity.
  - destruct I as [-> | I]; [|apply IH; assumption].
    apply appid_of_targets in T; congruence.
Qed.

(** X6.  When a session of the list targets Spotify, the manager is not
    asked for its current session: the reader's result is the same whatever
    that call would have returned, also when it would have raised. *)
Theorem spotify_session_skips_current_session :
  forall (sessions : list session) (s : session)
         (current current' : result (option session)),
    In s sessions -> targets_spotify s ->
    get_local_now_playing
      {| import_winsdk := Returned tt;
         request_async :=
           Returned {| get_sessions := Returned sessions;
                       get_current_session := current |} |}
    = get_local_now_playing
        {| import_winsdk := Returned tt;
           request_async :=
             Returned {| get_sessions := Returned sessions;
                         get_current_session := current' |} |}.
Proof.
  intros sessions s current current' I T.
  destruct (find_spotify_some sessions s I T) as (s' & F).
  unfold get_local_now_playing.
  cbn [import_winsdk request_async get_sessions bind_result].
  unfold select_session; rewrite F; reflexivity.
Qed.

Lemma spotify_session_skips_current_session_witness :
  let spotify :=
    {| source_app_user_model_id := Returned (Some (lit "Spotify.exe"));
       try_get_media_properties_async :=
         Returned {| title := AttrStr (lit "Song"); artist := AttrNone |} |} in
  let oserror := Exn (lit "OSError") (lit "no current session") in
  get_local_now_playing
    {| import_winsdk := Returned tt;
       request_async :=
         Returned {| get_sessions := Returned [spotify];
                     get_current_session := Raised oserror |} |}
  = Returned (Some (lit "Song"), Some []).
Proof.
  intros spotify oserror.
  rewrite (spotify_session_skips_current_session [spotify] spotify
             (Raised oserror) (Returned None)).
  - reflexivity.
  - left; reflexivity.
  - apply appid_of_targets; reflexivity.
Defined.

Lemma find_spotify_skip (before after : list session) (s : session) :
  ~ targets_spotify s ->
  find_spotify (before ++ s :: after) = find_spotify (before ++ after).
Proof.
  intros N; induction before as [|b before IH]; simpl.
  - apply appid_of_not_targets in N; rewrite N; reflexivity.
  - rewrite IH; reflexivity.
Qed.

(** X7.  A session whose application identifier cannot be read (reading it
    raises, or gives None) does not stop the reader and is never taken for
    Spotify: the selection is what it would be without that session in the
    list. *)
Theorem unreadable_appid_is_skipped :
  forall (mgr : manager) (before after : list session) (s : session),
    (forall appid, source_app_user_model_id s <> Returned (Some appid)) ->
    select_session mgr (before ++ s :: after)
    = select_session mgr (before ++ after).
Proof.
  intros mgr before after s H; unfold select_session.
  rewrite find_spotify_skip; [reflexivity|].
  intros (appid & pre & post & E & _); exact (H appid E).
Qed.

Lemma unreadable_appid_is_skipped_witness :
  let faulty :=
    {| source_app_user_model_id :=
         Raised (Exn (lit "OSError") (lit "access denied"));
       try_get_media_properties_async :=
         Returned {| title := AttrStr (lit "Spotify"); artist := AttrNone |} |} in
  let mgr :=
    {| get_sessions := Returned [faulty];
       get_current_session := Returned None |} in
  select_session mgr ([] ++ faulty :: []) = Returned None.
Proof.
  intros faulty mgr.
  rewrite (unreadable_appid_is_skipped mgr [] [] faulty).
  - reflexivity.
  - intros appid; discriminate.
Defined.

(** ** The Share action, path by path *)

Lemma share_song_url_reader_raised
  (os : os_env) (network : request -> result response) (w : world) (e : exn) :
  get_local_now_playing os = Raised e ->
  share_song_url os network w = (Returned tt, shows (error_box e) w).
Proof.
  intros R; unfold share_song_url, try_except, bind, lift.
  rewrite R; reflexivity.
Qed.

Lemma share_song_url_no_track
  (os : os_env) (network : request -> result response) (w : world)
  (track artist : option str) :
  get_local_now_playing os = Returned (track, artist) ->
  truthy track = false ->
  share_song_url os network w = (Returned tt, shows no_track_overlay w).
Proof.
  intros R T; unfold share_song_url, try_except, bind, lift.
  rewrite R, T; reflexivity.
Qed.

Lemma share_song_url_network_raised
  (os : os_env) (network : request -> result response) (w : world)
  (track artist : option str) (e : exn) :
  get_local_now_playing os = Returned (track, artist) ->
  truthy track = true ->
  network (search_request (share_query track artist)) = Raised e ->
  share_song_url os network w
  = (Returned tt,
     shows (error_box e) (sends (search_request (share_query track artist)) w)).
Proof.
  intros R T N.
  unfold share_song_url, try_except, bind at 1, lift.
  rewrite R, T; cbn [negb].
  unfold youtube_first_result_url, bind, requests_get.
  fold (share_query track artist); rewrite N; reflexivity.
Qed.

Lemma share_song_url_answered
  (os : os_env) (network : request -> result response) (w : world)
  (track artist : option str) (resp : response) :
  get_local_now_playing os = Returned (track, artist) ->
  truthy track = true ->
  network (search_request (share_query track artist)) = Returned resp ->
  share_song_url os network w
  = (Returned tt,
     match first_result_of (status_code resp) (text resp) with
     | Some url =>
         copies url (sends (search_request (share_query track artist)) w)
     | None =>
         shows not_found_box
           (sends (search_request (share_query track artist)) w)
     end).
Proof.
  intros R T N.
  unfold share_song_url, try_except, bind at 1, lift.
  rewrite R, T; cbn [negb].
  fold (share_query track artist); unfold bind at 1.
  rewrite (youtube_first_result_url_returned network _ w resp N).
  destruct (first_result_of (status_code resp) (text resp)) as [url|] eqn:F;
    [|reflexivity].
  rewrite (first_result_of_truthy _ _ _ F); reflexivity.
Qed.

(** X8.  Every failure of the reader ends in one modal box that carries
    the exception's message after [Error: ]; no search request is sent and
    the clipboard is as it was.  With the capability missing the box reads
    [Error: Windows 'Now Playing' requires the 'winsdk' package. Install:
    pip install winsdk]. *)
Theorem share_reports_reader_failure :
  forall (os : os_env) (network : request -> result response) (w : world),
    (forall e,
       get_local_now_playing os = Raised e ->
       share_song_url os network w
       = (Returned tt,
          {| clipboard := clipboard w;
             indicators :=
               indicators w
               ++ [ErrorBox (lit "Spotify VRC") (lit "Error: " ++ exn_message e)];
             requests_sent := requests_sent w |}))
    /\ (forall e,
          import_winsdk os = Raised e ->
          share_song_url os network w
          = (Returned tt,
             {| clipboard := clipboard w;
                indicators :=
                  indicators w
                  ++ [ErrorBox (lit "Spotify VRC")
                        (lit "Error: Windows 'Now Playing' requires the 'winsdk' package. Install: pip install winsdk")];
                requests_sent := requests_sent w |})).
Proof.
  intros os network w; split; intros e H.
  - apply share_song_url_reader_raised; exact H.
  - rewrite (share_song_url_reader_raised os network w winsdk_missing);
      [reflexivity|].
    unfold get_local_now_playing; rewrite H; reflexivity.
Qed.

Lemma share_reports_reader_failure_witness :
  let missing := Exn (lit "ModuleNotFoundError") (lit "No module named 'winsdk'") in
  let os := {| import_winsdk := Raised missing; request_async := Raised missing |} in
  let network := fun _ : request =>
    Returned {| status_code := 200; text := lit "watch?v=XXXXXXXXXXX" |} in
  let w := {| clipboard := lit "kept"; indicators := []; requests_sent := [] |} in
  share_song_url os network w
  = (Returned tt,
     {| clipboard := lit "kept";
        indicators :=
          [ErrorBox (lit "Spotify VRC")
             (lit "Error: Windows 'Now Playing' requires the 'winsdk' package. Install: pip install winsdk")];
        requests_sent := [] |}).
Proof.
  intros missing os network w.
  exact (proj2 (share_reports_reader_failure os network w) missing eq_refl).
Defined.

(** X9.  When the search request itself fails (the network call raises),
    the Share action ends in one modal box with that exception's message;
    the request was sent once and the clipboard is as it was. *)
Theorem share_reports_network_failure :
  forall (os : os_env) (network : request -> result response) (w : world)
         (title artist : str) (e : exn),
    get_local_now_playing os = Returned (Some title, Some artist) ->
    title <> [] ->
    network (search_request (strip (title ++ lit " " ++ artist))) = Raised e ->
    share_song_url os network w
    = (Returned tt,
       {| clipboard := clipboard w;
          indicators :=
            indicators w
            ++ [ErrorBox (lit "Spotify VRC") (lit "Error: " ++ exn_message e)];
          requests_sent :=
            requests_sent w
            ++ [search_request (strip (title ++ lit " " ++ artist))] |}).
Proof.
  intros os network w title artist e R T N.
  apply (share_song_url_network_raised os network w (Some title) (Some artist));
    [exact R | destruct title; [congruence | reflexivity] | exact N].
Qed.

Lemma share_reports_network_failure_witness :
  let spotify :=
    {| source_app_user_model_id := Returned (Some (lit "Spotify.exe"));
       try_get_media_properties_async :=
         Returned {| title := AttrStr (lit "Song"); artist := AttrNone |} |} in
  let os :=
    {| import_winsdk := Returned tt;
       request_async :=
         Returned {| get_sessions := Returned [spotify];
                     get_current_session := Returned None |} |} in
  let timeout := Exn (lit "ReadTimeout") (lit "Read timed out. (read timeout=20)") in
  let network := fun _ : request => @Raised response timeout in
  let w := {| clipboard := lit "kept"; indicators := []; requests_sent := [] |} in
  share_song_url os network w
  = (Returned tt,
     {| clipboard := lit "kept";
        indicators :=
          [ErrorBox (lit "Spotify VRC")
             (lit "Error: Read timed out. (read timeout=20)")];
        requests_sent := [search_request (lit "Song")] |}).
Proof.
  intros spotify os timeout network w.
  assert (T : lit "Song" <> []) by discriminate.
  exact (share_reports_network_failure os network w (lit "Song") [] timeout
           eq_refl T eq_refl).
Defined.

(** X10.  When the search is answered but gives no result (a status other
    than 200, or a body without the pattern), the Share action shows the
    modal box [Couldn't find a YouTube result.], having sent the request
    once, and the clipboard is as it was. *)
Theorem share_reports_no_result :
  forall (os : os_env) (network : request -> result response) (w : world)
         (title artist : str) (resp : response),
    get_local_now_playing os = Returned (Some title, Some artist) ->
    title <> [] ->
    network (search_request (strip (title ++ lit " " ++ artist)))
    = Returned resp ->
    status_code resp <> 200%Z \/ ~ has_watch_id (text resp) ->
    share_song_url os network w
    = (Returned tt,
       {| clipboard := clipboard w;
          indicators :=
            indicators w
            ++ [ErrorBox (lit "Spotify VRC")
                  (lit "Couldn't find a YouTube result.")];
          requests_sent :=
            requests_sent w
            ++ [search_request (strip (title ++ lit " " ++ artist))] |}).
Proof.
  intros os network w title artist resp R T N D.
  rewrite (share_song_url_answered os network w (Some title) (Some artist) resp);
    [| exact R | destruct title; [congruence | reflexivity] | exact N].
  destruct (first_result_of_cases (status_code resp) (text resp))
    as [[-> _] | (vid & _ & S & H & _)]; [reflexivity|].
  destruct D as [D | D]; contradiction.
Qed.

Lemma share_reports_no_result_witness :
  let spotify :=
    {| source_app_user_model_id := Returned (Some (lit "Spotify.exe"));
       try_get_media_properties_async :=
         Returned {| title := AttrStr (lit "Song"); artist := AttrNone |} |} in
  let os :=
    {| import_winsdk := Returned tt;
       request_async :=
         Returned {| get_sessions := Returned [spotify];
                     get_current_session := Returned None |} |} in
  let network := fun _ : request =>
    Returned {| status_code := 429; text := lit "watch?v=XXXXXXXXXXX" |} in
  let w := {| clipboard := lit "kept"; indicators := []; requests_sent := [] |} in
  share_song_url os network w
  = (Returned tt,
     {| clipboard := lit "kept";
        indicators :=
          [ErrorBox (lit "Spotify VRC") (lit "Couldn't find a YouTube result.")];
        requests_sent := [search_request (lit "Song")] |}).
Proof.
  intros spotify os network w.
  assert (T : lit "Song" <> []) by discriminate.
  assert (D : (429 <> 200)%Z) by discriminate.
  exact (share_reports_no_result os network w (lit "Song") []
           {| status_code := 429; text := lit "watch?v=XXXXXXXXXXX" |}
           eq_refl T eq_refl (or_introl D)).
Defined.

(** X11.  The Share action never lets an exception out, sends at most one
    search request, and ends in exactly one of two ways: one indicator is
    shown and the clipboard is as it was, or no indicator is shown and the
    clipboard holds the watch URL of an eleven-character identifier. *)
Theorem share_song_url_outcomes :
  forall (os : os_env) (network : request -> result response) (w : world),
    exists w',
      share_song_url os network w = (Returned tt, w')
      /\ (requests_sent w' = requests_sent w
          \/ exists rq, requests_sent w' = requests_sent w ++ [rq])
      /\ ((exists ind,
             indicators w' = indicators w ++ [ind]
             /\ clipboard w' = clipboard w)
          \/ (indicators w' = indicators w
              /\ exists vid,
                   length vid = 11 /\ id_chars vid
                   /\ clipboard w' = watch_url vid)).
Proof.
  intros os network w.
  destruct (get_local_now_playing os) as [[track artist]|e] eqn:R.
  - destruct (truthy track) eqn:T.
    + destruct (network (search_request (share_query track artist)))
        as [resp|e] eqn:N.
      * rewrite (share_song_url_answered os network w track artist resp R T N).
        destruct (first_result_of_cases (status_code resp) (text resp))
          as [[-> _] | (vid & -> & _ & _ & L & F)];
          eexists; (split; [reflexivity|]); simpl;
          (split; [right; eexists; reflexivity|]).
        -- left; eexists; split; reflexivity.
        -- right; split; [reflexivity | exists vid; auto].
      * rewrite (share_song_url_network_raised os network w track artist e R T N).
        eexists; split; [reflexivity|]; simpl.
        split; [right; eexists; reflexivity | left; eexists; split; reflexivity].
    + rewrite (share_song_url_no_track os network w track artist R T).
      eexists; split; [reflexivity|]; simpl.
      split; [left; reflexivity | left; eexists; split; reflexivity].
  - rewrite (share_song_url_reader_raised os network w e R).
    eexists; split; [reflexivity|]; simpl.
    split; [left; reflexivity | left; eexists; split; reflexivity].
Qed.

(** ** The query *)

Lemma strip_nonempty_clean (s : str) : strip s = s -> s <> [] -> clean s.
Proof.
  intros E N; destruct (strip_cases s) as [Z | C]; rewrite E in *;
    [contradiction | exact C].
Qed.

Lemma strip_trailing_space (t : str) :
  clean t -> strip (t ++ lit " ") = t.
Proof.
  intros [H1 H2]; unfold strip, rstrip.
  rewrite (lstrip_head_ok _ (head_ok_app t (lit " ") H1)).
  rewrite rev_app_distr; change (rev (lit " ")) with (lit " ").
  change (lstrip (lit " " ++ rev t)) with (lstrip (rev t)).
  rewrite (lstrip_head_ok _ H2); apply rev_involutive.
Qed.

Lemma strip_joined (t a : str) :
  clean t -> clean a -> strip (t ++ lit " " ++ a) = t ++ lit " " ++ a.
Proof.
  intros [T1 _] [_ A2]; apply strip_clean.
  - apply head_ok_app; exact T1.
  - rewrite !rev_app_distr, <- app_assoc; apply head_ok_app; exact A2.
Qed.

(** X12.  For what the reader returns, stripping the query has one effect
    only: with an empty artist the query is the title alone, without the
    space after it; with an artist it is the title, one space and the
    artist, unchanged. *)
Theorem share_query_shape :
  forall (os : os_env) (title artist : str),
    get_local_now_playing os = Returned (Some title, Some artist) ->
    title <> [] ->
    strip (title ++ lit " " ++ artist)
    = match artist with
      | [] => title
      | _ :: _ => title ++ lit " " ++ artist
      end.
Proof.
  intros os title artist R T.
  destruct (reader_result_shape_aux os _ _ R)
    as [[E _] | (t & a & [= <-] & [= <-] & St & Sa & _)]; [discriminate E|].
  pose proof (strip_nonempty_clean title St T) as Ct.
  destruct artist as [|c artist].
  - rewrite app_nil_r; apply strip_trailing_space; exact Ct.
  - apply strip_joined; [exact Ct|].
    apply strip_nonempty_clean; [exact Sa | discriminate].
Qed.

Lemma share_query_shape_witness :
  let spotify :=
    {| source_app_user_model_id := Returned (Some (lit "Spotify.exe"));
       try_get_media_properties_async :=
         Returned {| title := AttrStr (lit " Song "); artist := AttrMissing |} |} in
  let os :=
    {| import_winsdk := Returned tt;
       request_async :=
         Returned {| get_sessions := Returned [spotify];
                     get_current_session := Returned None |} |} in
  get_local_now_playing os = Returned (Some (lit "Song"), Some [])
  /\ strip (lit "Song" ++ lit " " ++ []) = lit "Song".
Proof.
  intros spotify os; split; [reflexivity|].
  assert (T : lit "Song" <> []) by discriminate.
  exact (share_query_shape os (lit "Song") [] eq_refl T).
Defined.

(** ** Nothing playing, and sharing again *)

Lemma app_one_neq {A} (l : list A) (x : A) : l ++ [x] <> l.
Proof.
  intros E; apply (f_equal (@length A)) in E.
  rewrite length_app in E; simpl in E; lia.
Qed.

Lemma share_song_url_sends
  (os : os_env) (network : request -> result response) (w : world)
  (track artist : option str) :
  get_local_now_playing os = Returned (track, artist) ->
  truthy track = true ->
  requests_sent (snd (share_song_url os network w))
  = requests_sent w ++ [search_request (share_query track artist)].
Proof.
  intros R T.
  destruct (network (search_request (share_query track artist)))
    as [resp|e] eqn:N.
  - rewrite (share_song_url_answered os network w track artist resp R T N).
    destruct (first_result_of (status_code resp) (text resp)); reflexivity.
  - rewrite (share_song_url_network_raised os network w track artist e R T N).
    reflexivity.
Qed.

(** X13.  With a session selected and its properties read, the Share
    action takes the nothing-playing path (the transient overlay, no
    request, clipboard kept) exactly when the session's title is missing,
    None or made of whitespace only. *)
Theorem blank_title_is_nothing_playing :
  forall (os : os_env) (mgr : manager) (sessions : list session)
         (s : session) (props : media_properties)
         (network : request -> result response) (w : world),
    import_winsdk os = Returned tt ->
    request_async os = Returned mgr ->
    get_sessions mgr = Returned sessions ->
    select_session mgr sessions = Returned (Some s) ->
    try_get_media_properties_async s = Returned props ->
    (share_song_url os network w
     = (Returned tt,
        {| clipboard := clipboard w;
           indicators := indicators w ++ [Overlay (lit "no track is playing") 2000 500];
           requests_sent := requests_sent w |})
     <-> all_space (getattr_or_empty (title props))).
Proof.
  intros os mgr sessions s props network w I Rq S Sel P.
  assert (R : get_local_now_playing os
              = Returned
                  (Some (strip (getattr_or_empty (title props))),
                   Some (normalize_artist
                           (strip (getattr_or_empty (artist props)))))).
  { rewrite (get_local_now_playing_selected os mgr sessions I Rq S), Sel.
    simpl; rewrite P; reflexivity. }
  rewrite <- strip_nil_iff; split.
  - intros E.
    destruct (strip (getattr_or_empty (title props))) as [|c t] eqn:T;
      [reflexivity|].
    pose proof (share_song_url_sends os network w _ _ R eq_refl) as Q.
    rewrite E in Q; simpl in Q; symmetry in Q.
    exfalso; exact (app_one_neq _ _ Q).
  - intros E; rewrite E in R.
    apply (share_song_url_no_track os network w _ _ R); reflexivity.
Qed.

Lemma blank_title_is_nothing_playing_witness :
  let idle :=
    {| source_app_user_model_id := Returned (Some (lit "Spotify.exe"));
       try_get_media_properties_async :=
         Returned {| title := AttrStr (lit "   "); artist := AttrStr (lit "A") |} |} in
  let mgr :=
    {| get_sessions := Returned [idle];
       get_current_session := Returned None |} in
  let os := {| import_winsdk := Returned tt; request_async := Returned mgr |} in
  let network := fun _ : request =>
    Returned {| status_code := 200; text := lit "watch?v=XXXXXXXXXXX" |} in
  let w := {| clipboard := lit "kept"; indicators := []; requests_sent := [] |} in
  share_song_url os network w
  = (Returned tt,
     {| clipboard := lit "kept";
        indicators := [Overlay (lit "no track is playing") 2000 500];
        requests_sent := [] |}).
Proof.
  intros idle mgr os network w.
  apply (proj2 (blank_title_is_nothing_playing os mgr [idle] idle
                  {| title := AttrStr (lit "   "); artist := AttrStr (lit "A") |}
                  network w eq_refl eq_refl eq_refl eq_refl eq_refl)).
  repeat constructor.
Defined.

(** X14.  Sharing again with the same session and the same answer from the
    network leaves the clipboard as the first Share left it, and repeats the
    first Share's indicator and request. *)
Theorem share_twice_same_clipboard :
  forall (os : os_env) (network : request -> result response) (w : world),
    let w1 := snd (share_song_url os network w) in
    let w2 := snd (share_song_url os network w1) in
    clipboard w2 = clipboard w1
    /\ exists inds rqs,
         indicators w1 = indicators w ++ inds
         /\ indicators w2 = indicators w1 ++ inds
         /\ requests_sent w1 = requests_sent w ++ rqs
         /\ requests_sent w2 = requests_sent w1 ++ rqs.
Proof.
  intros os network w; cbv zeta.
  destruct (get_local_now_playing os) as [[track artist]|e] eqn:R.
  - destruct (truthy track) eqn:T.
    + destruct (network (search_request (share_query track artist)))
        as [resp|e] eqn:N.
      * rewrite !(fun w => share_song_url_answered os network w track artist resp R T N).
        destruct (first_result_of (status_code resp) (text resp)) as [url|];
          simpl; (split; [reflexivity|]).
        -- exists [], [search_request (share_query track artist)].
           rewrite !app_nil_r; auto.
        -- exists [not_found_box], [search_request (share_query track artist)].
           auto.
      * rewrite !(fun w => share_song_url_network_raised os network w track artist e R T N).
        simpl; split; [reflexivity|].
        exists [error_box e], [search_request (share_query track artist)]; auto.
    + rewrite !(fun w => share_song_url_no_track os network w track artist R T).
      simpl; split; [reflexivity|].
      exists [no_track_overlay], []; rewrite !app_nil_r; auto.
  - rewrite !(fun w => share_song_url_reader_raised os network w e R).
    simpl; split; [reflexivity|].
    exists [error_box e], []; rewrite !app_nil_r; auto.
Qed.

(** ** The overlay and its timers *)

Ltac crunch :=
  unfold App._hide_overlay, App.after_cancel, App.destroy;
  repeat (cbn; rewrite ?Nat.eqb_refl); try reflexivity.

Lemma hide_consistent (a : App.app) :
  App.consistent a ->
  App._hide_overlay a = quiet_state (App.next_window a) (App.next_timer a).
Proof.
  destruct a as [ov oa fa ws ts nw nt]; unfold App.consistent; simpl.
  intros (W & L & T & _ & _); unfold quiet_state; simpl.
  destruct ts as [|t [|t' ts]]; simpl in L; [| |lia].
  - destruct ov as [ov|].
    + destruct W as [(text & i & ->) _]; destruct oa, fa; crunch.
    + destruct W as [-> _]; destruct oa, fa; crunch.
  - destruct (T t (or_introl eq_refl)) as [O I]; subst ov.
    destruct W as [(text & i & ->) _].
    destruct I as [-> | ->].
    + destruct fa; crunch.
    + destruct oa as [o|]; [destruct (App.timer_id t =? o) eqn:E|]; crunch;
        rewrite ?E; crunch.
Qed.

Lemma show_consistent (a : App.app) (text : str) (d f : Z) :
  App.consistent a ->
  App._show_overlay text d f a
  = shown_state text d f (App.next_window a) (App.next_timer a).
Proof.
  intros C; unfold App._show_overlay; rewrite (hide_consistent a C).
  reflexivity.
Qed.

Lemma quiet_state_consistent (nw nt : nat) :
  App.consistent (quiet_state nw nt).
Proof.
  unfold App.consistent, quiet_state; simpl.
  repeat split; try discriminate; try lia; intros t [].
Qed.

Lemma fading_state_consistent
  (ov : nat) (text : str) (alpha : Z) (tid : nat) (ms i sm : Z)
  (oa fa : option nat) (nw nt : nat) :
  ov < nw ->
  oa = Some tid \/ fa = Some tid ->
  (forall id, oa = Some id -> id < nt) ->
  (forall id, fa = Some id -> id < nt) ->
  App.consistent (fading_state ov text alpha tid ms i sm oa fa nw nt).
Proof.
  intros Hov Hid Hoa Hfa; unfold App.consistent, fading_state; simpl.
  split; [split; [exists text, alpha; reflexivity | exact Hov]|].
  split; [lia|].
  split; [|split; assumption].
  intros t [<- | []]; simpl; split; [reflexivity | exact Hid].
Qed.

Lemma consistent_pending (a : App.app) (t : App.timer) (ts : list App.timer) :
  App.consistent a -> App.timers a = t :: ts ->
  exists text alpha,
    a = fading_state (App.cb_overlay (App.timer_callback t)) text alpha
          (App.timer_id t) (App.timer_ms t)
          (App.cb_step (App.timer_callback t))
          (App.cb_step_ms (App.timer_callback t))
          (App._overlay_after_id a) (App._fade_after_id a)
          (App.next_window a) (App.next_timer a)
    /\ App.cb_overlay (App.timer_callback t) < App.next_window a
    /\ (App._overlay_after_id a = Some (App.timer_id t)
        \/ App._fade_after_id a = Some (App.timer_id t)).
Proof.
  destruct a as [ov oa fa ws tms nw nt]; unfold App.consistent; simpl.
  intros (W & L & T & _ & _) ->.
  destruct ts as [|t' ts]; [|simpl in L; lia].
  destruct (T t (or_introl eq_refl)) as [-> I].
  destruct W as [(text & alpha & ->) Hov].
  exists text, alpha; split; [|split; assumption].
  destruct t as [tid ms [cov ci csm]]; reflexivity.
Qed.

Lemma fire_fading_lt
  (ov : nat) (text : str) (alpha : Z) (tid : nat) (ms i sm : Z)
  (oa fa : option nat) (nw nt : nat) :
  (i < 10)%Z ->
  App.fire tid (fading_state ov text alpha tid ms i sm oa fa nw nt)
  = fading_state ov text i nt sm (i + 1) sm oa (Some nt) nw (S nt).
Proof.
  intros H; unfold App.fire, fading_state; cbn [App.timers find App.timer_id].
  rewrite Nat.eqb_refl; unfold App._fade_step, App.after_cancel.
  cbn; rewrite !Nat.eqb_refl; cbn.
  apply Z.ltb_lt in H; unfold App.steps; rewrite H; cbn.
  reflexivity.
Qed.

Lemma fire_fading_ge
  (ov : nat) (text : str) (alpha : Z) (tid : nat) (ms i sm : Z)
  (oa fa : option nat) (nw nt : nat) :
  ~ (i < 10)%Z ->
  App.fire tid (fading_state ov text alpha tid ms i sm oa fa nw nt)
  = quiet_state nw nt.
Proof.
  intros H; unfold App.fire, fading_state; cbn [App.timers find App.timer_id].
  rewrite Nat.eqb_refl; unfold App._fade_step, App.after_cancel.
  cbn; rewrite !Nat.eqb_refl; cbn.
  apply Z.ltb_nlt in H; unfold App.steps; rewrite H.
  unfold quiet_state; destruct oa, fa; crunch.
Qed.

Lemma fire_other (a : App.app) (id : nat) :
  (forall t, In t (App.timers a) -> App.timer_id t <> id) ->
  App.fire id a = a.
Proof.
  intros H; unfold App.fire.
  destruct (find (fun t => App.timer_id t =? id) (App.timers a)) as [t|] eqn:F;
    [|reflexivity].
  apply find_some in F; destruct F as [I E]; apply Nat.eqb_eq in E.
  exfalso; exact (H t I E).
Qed.

Lemma step_consistent (a : App.app) (e : App.event) :
  App.consistent a -> App.consistent (App.step a e).
Proof.
  intros C; destruct e as [text d f | id]; simpl.
  - rewrite (show_consistent a text d f C).
    apply fading_state_consistent; [lia | left; reflexivity | |discriminate].
    intros id [= <-]; lia.
  - destruct (App.timers a) as [|t ts] eqn:T.
    + rewrite fire_other; [exact C | rewrite T; intros t []].
    + destruct (consistent_pending a t ts C T) as (text & alpha & E & Hov & I).
      destruct (Nat.eq_dec (App.timer_id t) id) as [<- | N].
      * pose proof C as (_ & _ & _ & Hoa & Hfa).
        rewrite E.
        destruct (Z.lt_ge_cases (App.cb_step (App.timer_callback t)) 10)
          as [Lt | Ge].
        -- rewrite fire_fading_lt by exact Lt.
           apply fading_state_consistent;
             [exact Hov | right; reflexivity | |intros id [= <-]; lia].
           intros id Hid; specialize (Hoa id Hid); lia.
        -- rewrite fire_fading_ge by lia; apply quiet_state_consistent.
      * rewrite fire_other; [exact C|].
        rewrite E; simpl; intros t' [<- | []]; exact N.
Qed.

Lemma run_consistent (events : list App.event) (a : App.app) :
  App.consistent a -> App.consistent (App.run events a).
Proof.
  revert a; induction events as [|e events IH]; intros a C; simpl;
    [exact C | apply IH, step_consistent, C].
Qed.

Lemma init_consistent : App.consistent App.init.
Proof. exact (quiet_state_consistent 0 0). Qed.

Lemma run_show (events : list App.event) (text : str) (d f : Z) :
  exists nw nt,
    App.run (events ++ [App.Show text d f]) App.init
    = shown_state text d f nw nt.
Proof.
  unfold App.run; rewrite fold_left_app; simpl.
  eexists; eexists; apply show_consistent.
  apply (run_consistent events), init_consistent.
Qed.

(** X15.  Whatever sequence of Share overlays and timer firings happens,
    at most one overlay window is alive and at most one timer is pending;
    a pending timer belongs to the window that is alive (no timer of a
    replaced overlay is left); [_overlay] is None exactly when no window is
    alive; and right after an overlay is shown, the one window alive carries
    its text and the one pending timer is its hold timer. *)
Theorem overlay_is_single :
  forall (events : list App.event),
    let a := App.run events App.init in
    length (App.windows a) <= 1
    /\ length (App.timers a) <= 1
    /\ (forall t, In t (App.timers a) ->
          exists w,
            App.windows a = [w]
            /\ App.window_id w = App.cb_overlay (App.timer_callback t))
    /\ (App._overlay a = None <-> App.windows a = [])
    /\ (forall text d f,
          let a' := App.run (events ++ [App.Show text d f]) App.init in
          (exists w,
             App.windows a' = [w] /\ App.window_text w = text
             /\ App._overlay a' = Some (App.window_id w))
          /\ (exists t,
                App.timers a' = [t]
                /\ App.timer_ms t = Z.max 0 (d - f)
                /\ App._overlay_after_id a' = Some (App.timer_id t))).
Proof.
  intros events a.
  pose proof (run_consistent events App.init init_consistent) as C.
  fold a in C; destruct C as (W & L & T & _ & _).
  split; [|split; [exact L | split; [|split]]].
  - destruct (App._overlay a);
      [destruct W as [(text & i & ->) _] | destruct W as [-> _]]; simpl; lia.
  - intros t I; destruct (T t I) as [O _]; rewrite O in W.
    destruct W as [(text & i & ->) _]; eexists; split; reflexivity.
  - destruct (App._overlay a);
      [destruct W as [(text & i & ->) _] | destruct W as [-> _]];
      split; try discriminate; reflexivity.
  - intros text d f a'; subst a'.
    destruct (run_show events text d f) as (nw & nt & ->).
    split; eexists; repeat split.
Qed.

Lemma run_timers_fading (k : nat) :
  forall (ov : nat) (text : str) (alpha : Z) (tid : nat) (ms i sm : Z)
         (oa fa : option nat) (nw nt : nat),
    i = (10 - Z.of_nat k)%Z ->
    App.run_timers (S k)
      (fading_state ov text alpha tid ms i sm oa fa nw nt)
    = ((ms + Z.of_nat k * sm)%Z, quiet_state nw (nt + k)).
Proof.
  induction k as [|k IH]; intros ov text alpha tid ms i sm oa fa nw nt E.
  - change (App.run_timers 1 (fading_state ov text alpha tid ms i sm oa fa nw nt))
      with (let '(elapsed, a') :=
              App.run_timers 0
                (App.fire tid (fading_state ov text alpha tid ms i sm oa fa nw nt))
            in ((ms + elapsed)%Z, a')).
    rewrite fire_fading_ge by lia; simpl.
    replace (nt + 0) with nt by lia; reflexivity.
  - change (App.run_timers (S (S k))
              (fading_state ov text alpha tid ms i sm oa fa nw nt))
      with (let '(elapsed, a') :=
              App.run_timers (S k)
                (App.fire tid (fading_state ov text alpha tid ms i sm oa fa nw nt))
            in ((ms + elapsed)%Z, a')).
    rewrite fire_fading_lt by lia.
    rewrite IH by lia.
    replace (S nt + k) with (nt + S k) by lia; f_equal; lia.
Qed.

Lemma run_timers_still_fading (n : nat) :
  forall (ov : nat) (text : str) (alpha : Z) (tid : nat) (ms i sm : Z)
         (oa fa : option nat) (nw nt : nat),
    (i + Z.of_nat n <= 10)%Z ->
    exists alpha' tid' ms' oa' fa' nt',
      snd (App.run_timers n
             (fading_state ov text alpha tid ms i sm oa fa nw nt))
      = fading_state ov text alpha' tid' ms' (i + Z.of_nat n) sm oa' fa' nw nt'.
Proof.
  induction n as [|n IH]; intros ov text alpha tid ms i sm oa fa nw nt E.
  - exists alpha, tid, ms, oa, fa, nt; simpl; rewrite Z.add_0_r; reflexivity.
  - change (App.run_timers (S n)
              (fading_state ov text alpha tid ms i sm oa fa nw nt))
      with (let '(elapsed, a') :=
              App.run_timers n
                (App.fire tid (fading_state ov text alpha tid ms i sm oa fa nw nt))
            in ((ms + elapsed)%Z, a')).
    rewrite fire_fading_lt by lia.
    destruct (IH ov text i nt sm (i + 1)%Z sm oa (Some nt) nw (S nt))
      as (alpha' & tid' & ms' & oa' & fa' & nt' & H); [lia|].
    exists alpha', tid', ms', oa', fa', nt'.
    destruct (App.run_timers n _) as [elapsed a']; simpl in *.
    rewrite H; f_equal; lia.
Qed.

(** X16.  For [|fade_ms| < 2^53], an overlay that is shown and then left
    alone goes away by itself: the hold timer and nine fade timers fire,
    the tenth firing destroys the window and leaves no timer and no
    attribute set; until then the window is there with its text.  The
    delays asked for add up to
    max(0, duration_ms - fade_ms) + 9 * max(10, int(fade_ms / 10)). *)
Theorem overlay_fades_away :
  forall (events : list App.event) (text : str) (duration_ms fade_ms : Z),
    (Z.abs fade_ms < 2 ^ 53)%Z ->
    let a := App.run (events ++ [App.Show text duration_ms fade_ms]) App.init in
    App.quiet (snd (App.run_timers 10 a))
    /\ fst (App.run_timers 10 a)
       = (Z.max 0 (duration_ms - fade_ms)
          + 9 * Z.max 10 (Z.quot fade_ms 10))%Z
    /\ (forall n, n < 10 ->
          exists w,
            App.windows (snd (App.run_timers n a)) = [w]
            /\ App.window_text w = text).
Proof.
  intros events text d f _ a; subst a.
  destruct (run_show events text d f) as (nw & nt & ->).
  unfold shown_state; split; [|split].
  - rewrite (run_timers_fading 9) by reflexivity.
    unfold App.quiet, quiet_state; simpl; auto.
  - rewrite (run_timers_fading 9) by reflexivity; reflexivity.
  - intros n Hn.
    destruct (run_timers_still_fading n nw text 0 nt
                (Z.max 0 (d - f)) 1 (Z.max 10 (Z.quot f App.steps))
                (Some nt) None (S nw) (S nt))
      as (alpha' & tid' & ms' & oa' & fa' & nt' & ->); [lia|].
    eexists; split; reflexivity.
Qed.

(** X17.  For [|fade_ms| < 2^53], the delays of an overlay's timers add
    up to at least 90 ms; and when 100 <= fade_ms <= duration_ms, the
    overlay is gone before duration_ms has passed: the delays add up to
    duration_ms - fade_ms + 9 * (fade_ms div 10), which is between
    duration_ms - fade_ms div 10 - 9 and duration_ms - fade_ms div 10. *)
Theorem overlay_lifetime_bounds :
  forall (events : list App.event) (text : str) (duration_ms fade_ms : Z),
    (Z.abs fade_ms < 2 ^ 53)%Z ->
    let a := App.run (events ++ [App.Show text duration_ms fade_ms]) App.init in
    (90 <= fst (App.run_timers 10 a))%Z
    /\ ((100 <= fade_ms)%Z -> (fade_ms <= duration_ms)%Z ->
        (duration_ms - fade_ms / 10 - 9 <= fst (App.run_timers 10 a)
         <= duration_ms - fade_ms / 10)%Z).
Proof.
  intros events text d f _ a; subst a.
  destruct (run_show events text d f) as (nw & nt & ->).
  unfold shown_state; rewrite (run_timers_fading 9) by reflexivity.
  cbn [fst]; unfold App.steps; split; [lia|].
  intros H1 H2; rewrite Z.quot_div_nonneg by lia.
  pose proof (Z.div_mod f 10 ltac:(lia)) as D.
  pose proof (Z.mod_pos_bound f 10 ltac:(lia)) as B.
  lia.
Qed.

Lemma overlay_lifetime_bounds_witness :
  let a := App.run [App.Show (lit "no track is playing") 2000 500] App.init in
  fst (App.run_timers 10 a) = 1950%Z
  /\ (2000 - 500 / 10 - 9 <= fst (App.run_timers 10 a) <= 2000 - 500 / 10)%Z.
Proof.
  intros a; split; [reflexivity|].
  exact (proj2 (overlay_lifetime_bounds [] (lit "no track is playing") 2000 500
                  eq_refl)
           ltac:(lia) ltac:(lia)).
Defined.

(** ** Normalization keeps what there is *)

Lemma kept_segments_nil_iff (a : str) :
  kept_segments a = [] <-> forall seg, In seg (split_seps a) -> all_space seg.
Proof.
  unfold kept_segments; split.
  - intros E seg I; apply strip_nil_iff.
    destruct (strip seg) as [|c t] eqn:S; [reflexivity|].
    assert (K : In seg (filter (fun x => str_truthy (strip x)) (split_seps a)))
      by (apply filter_In; split; [exact I | rewrite S; reflexivity]).
    apply (in_map strip) in K; rewrite E in K; destruct K.
  - intros H.
    replace (filter (fun x => str_truthy (strip x)) (split_seps a))
      with (@nil str); [reflexivity|].
    symmetry; induction (split_seps a) as [|seg segs IH]; [reflexivity|].
    simpl; rewrite (proj2 (strip_nil_iff seg) (H seg (or_introl eq_refl))).
    simpl; apply IH; intros x I; apply H; right; exact I.
Qed.

(** X18.  Normalization never loses the artist: the result is empty only
    for the empty string; when some segment between the separators is not
    blank the result has no separator left and no whitespace at its ends;
    and when every segment is blank (only separators and whitespace) the
    string comes back as it was. *)
Theorem normalize_artist_keeps_content :
  forall a : str,
    (normalize_artist a = [] <-> a = [])
    /\ ((exists seg, In seg (split_seps a) /\ ~ all_space seg) ->
        no_sep (normalize_artist a) /\ clean (normalize_artist a))
    /\ ((forall seg, In seg (split_seps a) -> all_space seg) ->
        normalize_artist a = a).
Proof.
  intros a; split; [|split].
  - split; [|intros ->; reflexivity].
    destruct (normalize_artist_cases a) as [E | (_ & [C _] & _)].
    + rewrite E; tauto.
    + intros Z; rewrite Z in C; destruct C.
  - intros (seg & I & N).
    unfold normalize_artist; fold (kept_segments a).
    destruct (kept_segments a) as [|p rest] eqn:K.
    + exfalso; apply N; exact (proj1 (kept_segments_nil_iff a) K seg I).
    + assert (C : clean (join (lit ", ") (p :: rest)))
        by (apply join_clean; [discriminate | rewrite <- K; apply kept_segments_clean]).
      assert (S : no_sep (join (lit ", ") (p :: rest)))
        by (apply join_no_sep;
            [repeat constructor | rewrite <- K; apply kept_segments_no_sep]).
      unfold str_or; rewrite (head_ok_truthy _ (proj1 C)); split; assumption.
  - intros H; unfold normalize_artist; fold (kept_segments a).
    rewrite (proj2 (kept_segments_nil_iff a) H); reflexivity.
Qed.

Lemma normalize_artist_keeps_content_witness :
  normalize_artist (lit "; /") = lit "; /"
  /\ no_sep (normalize_artist (lit " ;AC/DC")).
Proof.
  split.
  - apply (proj2 (proj2 (normalize_artist_keeps_content (lit "; /")))).
    intros seg [<- | [<- | [<- | []]]]; repeat constructor.
  - apply (proj1 (proj2 (normalize_artist_keeps_content (lit " ;AC/DC")))).
    exists (lit "AC"); split; [right; left; reflexivity|].
    intros H; inversion H; discriminate.
Defined.

Lemma overlay_is_single_witness :
  let events :=
    [App.Show (lit "no track is playing") 2000 500; App.Fire 0;
     App.Show (lit "no track is playing") 2000 500] in
  let t :=
    {| App.timer_id := 2; App.timer_ms := 1500;
       App.timer_callback :=
         {| App.cb_overlay := 1; App.cb_step := 1; App.cb_step_ms := 50 |} |} in
  In t (App.timers (App.run events App.init))
  /\ exists w,
       App.windows (App.run events App.init) = [w]
       /\ App.window_id w = App.cb_overlay (App.timer_callback t).
Proof.
  intros events t.
  assert (I : In t (App.timers (App.run events App.init)))
    by (vm_compute; left; reflexivity).
  split; [exact I|].
  exact (proj1 (proj2 (proj2 (overlay_is_single events))) t I).
Defined.

Lemma overlay_fades_away_witness :
  let a := App.run [App.Show (lit "no track is playing") 2000 500] App.init in
  (exists w,
     App.windows (snd (App.run_timers 9 a)) = [w]
     /\ App.window_text w = lit "no track is playing")
  /\ App.windows (snd (App.run_timers 10 a)) = []
  /\ fst (App.run_timers 10 a) = 1950%Z.
Proof.
  intros a.
  destruct (overlay_fades_away [] (lit "no track is playing") 2000 500
              eq_refl)
    as (Q & E & S).
  split; [apply (S 9); lia | split].
  - destruct Q as (_ & _ & _ & W & _); exact W.
  - exact E.
Defined.
